(** * Dioptra prototype services: user store, authentication and S3 upload

    A shallow embedding of
    - [src/proto/services.py] (PasswordService, UserService, AuthService), and
    - [src/mitre/securingai/restapi/shared/s3/service.py] (S3Service),
    together with the properties of the user/auth service and of the
    object-storage uploader that the specification states.

    Python values are modelled as follows.
    - [int] is [Z], [str] is [string] (the characters the code compares
      against, "/" and the like, are ASCII), [Optional[str]] is
      [option string].
    - A [User] instance is an object with identity: it lives in an object
      store ([objects], a list indexed by address) and is mutated in place.
      [db["users"]] is an insertion-ordered dictionary from string keys to
      references; [current_user] is a reference as well, so an assignment to
      one of its attributes is seen through the dictionary.
    - [uuid.uuid4().hex] and the salt that passlib draws for a new hash are
      not functions of the program state; every operation that draws one takes
      the drawn value as an argument.
    - A call of passlib's context returns or raises ([Outcome]).  The
      services handle no exception, so one that is raised leaves the method
      that was called, with the store as it was at that moment.
    - A returned [dict] with the two keys "status" and "message" is a [Body];
      a returned pair [(dict, int)] is [JsonWithCode]. *)

From Stdlib Require Import ZArith Lia Bool.
From stdpp Require Import base list strings pretty.

(** ** Insertion-ordered dictionaries with string keys *)

Module Dict.

Definition t (V : Type) : Type := list (string * V).

(** [d[k] = v]: an existing key keeps its position and gets the new value,
    a new key goes to the end. *)
Fixpoint set {V : Type} (k : string) (v : V) (d : t V) : t V :=
  match d with
  | [] => [(k, v)]
  | (k', v') :: d' =>
      if String.eqb k' k then (k, v) :: d' else (k', v') :: set k v d'
  end.

(** [d.values()] in iteration order. *)
Definition values {V : Type} (d : t V) : list V := map snd d.

Definition keys {V : Type} (d : t V) : list string := map fst d.

End Dict.

(** ** [src/proto/services.py] *)

Module Proto.

(** Modelled from the spec: [models.py] (the [User] dataclass and the
    global [db]) is not part of the sources at hand.  The fields and their
    order are those of the [User(...)] call in [register_new_user] and of
    the module doctest; spec section 3 describes them. *)
Record User : Type := mkUser {
  id : Z;
  alternative_id : string;
  name : string;
  password : string;
  deleted : bool
}.

(** A reference to a [User] object is an address of the object store. *)
Abbreviation ref := nat (only parsing).

(** The part of the Python heap that holds [User] objects, and
    [db["users"]]. *)
Record Db : Type := mkDb {
  objects : list User;
  users : Dict.t ref
}.

(** Modelled from the spec: [models.py] is not part of the sources at
    hand.  The module doctest registers the first user under key "1" with
    id 1, so the dictionary starts without users. *)
Definition db : Db := mkDb [] [].

(** [db["users"].values()]: the objects the dictionary refers to, each with
    its reference, in iteration order.  A Python reference always has its
    object; a reference without one, which the type [Db] does not exclude,
    yields no value here, and [refs_live] below says there is none. *)
Definition user_values (st : Db) : list (ref * User) :=
  omap (fun l => pair l <$> objects st !! l) (Dict.values (users st)).

(** Attribute assignment on the object behind a reference. *)
Definition store (l : ref) (u : User) (st : Db) : Db :=
  mkDb (<[l := u]> (objects st)) (users st).

(** [User(...)]: a new object, at the next free address. *)
Definition alloc (u : User) (st : Db) : ref * Db :=
  (length (objects st), mkDb (objects st ++ [u]) (users st)).

(** Responses: [{"status": s, "message": m}], alone or paired with an HTTP
    status code. *)
Record Body : Type := mkBody { status : Z; message : string }.

Inductive Response : Type :=
| Json (b : Body)
| JsonWithCode (b : Body) (code : Z).

(** What a call of the password primitive can raise: [PasswordSizeError]
    is passlib's answer to a password of more than 4096 characters,
    [OtherError cls] any other exception, of class [cls]. *)
Inductive Exception : Type :=
| PasswordSizeError
| OtherError (cls : string).

(** A call returns a value or raises.  Nothing in this module handles an
    exception: one that is raised leaves the method that was called, and
    the store is as it was at that moment. *)
Inductive Outcome (A : Type) : Type :=
| Returns (a : A)
| Raises (e : Exception).

Arguments Returns {A} a.
Arguments Raises {A} e.

(** passlib's [CryptContext], an external capability with two operations,
    each of which returns or raises.  [ctx_hash salt password] is the
    outcome of hashing with the salt drawn for this call. *)
Record CryptContext : Type := mkCryptContext {
  ctx_hash : string -> string -> Outcome string;
  ctx_verify : string -> string -> Outcome bool
}.

(** [max([x, *xs])]. *)
Definition py_max (x : Z) (xs : list Z) : Z := fold_left Z.max xs x.

Section Services.

(** The context handed to [PasswordService] by [_bootstrap_services].
    [UserService._password_service] and [SERVICES.password] are this one
    object. *)
Variable crypt : CryptContext.

(** *** PasswordService *)

Definition hash (salt password : string) : Outcome string :=
  ctx_hash crypt salt password.

Definition verify (password hashed_password : string) : Outcome bool :=
  ctx_verify crypt password hashed_password.

(** *** UserService *)

(** The condition of the generator in [authenticate_user] and of the list
    comprehension in [register_new_user]:
    [x.name == name and not x.deleted]. *)
Definition name_taken (nm : string) (x : ref * User) : bool :=
  String.eqb (name (snd x)) nm && negb (deleted (snd x)).

(** The loop body runs for the first element of the generator only: it
    returns when the password verifies and breaks otherwise.  An exception
    of [verify] leaves the method. *)
Definition authenticate_user (st : Db) (nm pw : string)
    : Outcome (option ref) :=
  match List.filter (name_taken nm) (user_values st) with
  | (l, user) :: _ =>
      match verify pw (password user) with
      | Raises e => Raises e
      | Returns verified => Returns (if verified then Some l else None)
      end
  | [] => Returns None
  end.

(** [current_user] is the reference [cu].  The result is [None] only when
    there is no object behind [cu], which Python's references rule out.
    [verify] runs before anything is assigned, and [hash] before the first
    assignment, so a call that raises has changed nothing. *)
Definition change_password (st : Db) (cu : ref)
    (current_password new_password salt uuid : string)
    : option (Outcome (Response * Db)) :=
  match objects st !! cu with
  | None => None
  | Some current_user =>
      Some
        match verify current_password (password current_user) with
        | Raises e => Raises e
        | Returns verified =>
            if negb verified
            then Returns (JsonWithCode (mkBody 403 "Password Change Failed")
                            403, st)
            else
              match hash salt new_password with
              | Raises e => Raises e
              | Returns hashed =>
                  let current_user1 :=
                    mkUser (id current_user) (alternative_id current_user)
                           (name current_user) hashed
                           (deleted current_user) in
                  let current_user2 :=
                    mkUser (id current_user1) uuid (name current_user1)
                           (password current_user1)
                           (deleted current_user1) in
                  Returns (Json (mkBody 200 "Password Change Successful"),
                           store cu current_user2
                                 (store cu current_user1 st))
              end
        end
  end.

Definition delete_current_user (st : Db) (cu : ref) (pw : string)
    : option (Outcome (Response * Db)) :=
  match objects st !! cu with
  | None => None
  | Some current_user =>
      Some
        match verify pw (password current_user) with
        | Raises e => Raises e
        | Returns verified =>
            if negb verified
            then Returns
                   (JsonWithCode
                      (mkBody 403
                         "Unable to delete current user, password check failed.")
                      403, st)
            else
              Returns
                (Json (mkBody 200 "Current user deleted successfully."),
                 store cu
                   (mkUser (id current_user) (alternative_id current_user)
                           (name current_user) (password current_user) true)
                   st)
        end
  end.

(** The loop returns at the first element of the generator. *)
Definition load_user (st : Db) (user_id : string) : option ref :=
  match List.filter
          (fun x => String.eqb (alternative_id (snd x)) user_id)
          (user_values st) with
  | (l, _) :: _ => Some l
  | [] => None
  end.

(** [max([0, *[x.id for x in db["users"].values()]]) + 1]. *)
Definition new_id (st : Db) : Z :=
  (py_max 0 (map (fun x => id (snd x)) (user_values st)) + 1)%Z.

(** The arguments of [User(...)] are evaluated before the dictionary is
    assigned to, so an exception of [hash] leaves the store as it was. *)
Definition register_new_user (st : Db)
    (nm pw confirm_password salt uuid : string) : Outcome (Response * Db) :=
  if negb (String.eqb pw confirm_password)
  then Returns
         (JsonWithCode
            (mkBody 403
               "The password and confirmation password did not match.")
            403, st)
  else if (0 <? length (map (fun x => name (snd x))
                          (List.filter (name_taken nm) (user_values st))))%nat
  then Returns
         (JsonWithCode
            (mkBody 403 ("The username " +:+ nm +:+ " is not available."))
            403, st)
  else
    let n := new_id st in
    match hash salt pw with
    | Raises e => Raises e
    | Returns hashed =>
        let (l, st1) := alloc (mkUser n uuid nm hashed false) st in
        Returns
          (Json (mkBody 200 ("User " +:+ nm +:+ " registration successful")),
           mkDb (objects st1) (Dict.set (pretty n) l (users st1)))
    end.

(** *** AuthService

    flask_login's session is outside the store: [login] returns, next to the
    response, the user handed to [login_user], and [logout_user()] leaves no
    trace in [Db]. *)

Definition login (st : Db) (username pw : string)
    : Outcome (Response * option ref) :=
  match authenticate_user st username pw with
  | Raises e => Raises e
  | Returns None =>
      Returns (JsonWithCode (mkBody 401 "Username or Password Error") 401,
               None)
  | Returns (Some user) =>
      Returns (Json (mkBody 200 "login success"), Some user)
  end.

Definition logout (st : Db) (cu : ref) (everywhere : bool) (uuid : string)
    : option (Response * Db) :=
  if everywhere then
    match objects st !! cu with
    | None => None
    | Some current_user =>
        Some (Json (mkBody 200 "logout success"),
              store cu
                (mkUser (id current_user) uuid (name current_user)
                        (password current_user) (deleted current_user))
                st)
    end
  else Some (Json (mkBody 200 "logout success"), st).

(** *** Runs of the service

    The calls that change the store.  [current_user] is whatever object the
    login manager resolved for the request, one that [db["users"]] holds; a
    call whose reference the dictionary does not hold is no call at all and
    leaves the store as it is. *)
Inductive Call : Type :=
| Register (nm pw confirm_password salt uuid : string)
| ChangePassword (cu : ref) (current_password new_password salt uuid : string)
| DeleteCurrentUser (cu : ref) (pw : string)
| Logout (cu : ref) (everywhere : bool) (uuid : string).

Definition held (st : Db) (cu : ref) : bool :=
  existsb (Nat.eqb cu) (Dict.values (users st)).

(** The store after a call made in [st]: the one the call returns, and
    [st] itself when the call raises. *)
Definition settled (r : Outcome (Response * Db)) (st : Db) : Db :=
  match r with
  | Returns (_, st') => st'
  | Raises _ => st
  end.

Definition after (r : option (Outcome (Response * Db))) (st : Db) : Db :=
  match r with
  | Some o => settled o st
  | None => st
  end.

(** The same for [logout], which calls nothing that raises. *)
Definition after_logout (r : option (Response * Db)) (st : Db) : Db :=
  match r with
  | Some (_, st') => st'
  | None => st
  end.

Definition exec (st : Db) (c : Call) : Db :=
  match c with
  | Register nm pw confirm_password salt uuid =>
      settled (register_new_user st nm pw confirm_password salt uuid) st
  | ChangePassword cu current_password new_password salt uuid =>
      if held st cu
      then after (change_password st cu current_password new_password
                    salt uuid) st
      else st
  | DeleteCurrentUser cu pw =>
      if held st cu then after (delete_current_user st cu pw) st else st
  | Logout cu everywhere uuid =>
      if held st cu
      then after_logout (logout st cu everywhere uuid) st
      else st
  end.

Definition run (calls : list Call) : Db := fold_left exec calls db.

(** The stores the service can be in. *)
Definition reachable (st : Db) : Prop := exists calls, run calls = st.

End Services.

(** *** The data-model invariants of the store (spec section 3) *)

(** Every reference of the dictionary has its object. *)
Definition refs_live (st : Db) : Prop :=
  forall k l, (k, l) ∈ users st -> (l < length (objects st))%nat.

(** Every key is the decimal rendering of its user's id. *)
Definition keys_match (st : Db) : Prop :=
  forall k l u, (k, l) ∈ users st -> objects st !! l = Some u ->
                k = pretty (id u).

(** Ids start from 1. *)
Definition ids_positive (st : Db) : Prop :=
  forall l u, (l, u) ∈ user_values st -> (1 <= id u)%Z.

(** At most one non-deleted user holds a name. *)
Definition names_unique (st : Db) : Prop :=
  forall l1 u1 l2 u2,
    (l1, u1) ∈ user_values st -> (l2, u2) ∈ user_values st ->
    name u1 = name u2 -> deleted u1 = false -> deleted u2 = false ->
    l1 = l2.

Record store_ok (st : Db) : Prop := mkStoreOk {
  ok_refs : refs_live st;
  ok_keys : keys_match st;
  ok_ids : ids_positive st;
  ok_names : names_unique st
}.

(** *** The two causes of a failed authentication *)



(** Some non-deleted user of the store has the name. *)
Definition name_held (st : Db) (nm : string) : Prop :=
  exists l u, (l, u) ∈ user_values st /\ name u = nm /\ deleted u = false.

(** *** Responses by kind *)

(** A failure of kind 403: [({"status": 403, "message": m}, 403)]. *)
Definition forbidden (r : Response) : Prop :=
  exists m, r = JsonWithCode (mkBody 403 m) 403.

Definition password_mismatch : Response :=
  JsonWithCode
    (mkBody 403 "The password and confirmation password did not match.") 403.

Definition name_not_available (nm : string) : Response :=
  JsonWithCode
    (mkBody 403 ("The username " +:+ nm +:+ " is not available.")) 403.

Definition registration_successful (nm : string) : Response :=
  Json (mkBody 200 ("User " +:+ nm +:+ " registration successful")).

Definition password_change_successful : Response :=
  Json (mkBody 200 "Password Change Successful").

Definition user_deleted : Response :=
  Json (mkBody 200 "Current user deleted successfully.").

(** The call answers with a failure of kind 403. *)
Definition fails_403 (o : Outcome (Response * Db)) : Prop :=
  exists r st', o = Returns (r, st') /\ forbidden r.

(** The record that a successful [register_new_user] creates, given the
    hash that was computed. *)
Definition new_user (st : Db) (nm hashed uuid : string) : User :=
  mkUser (new_id st) uuid nm hashed false.

(** passlib's [MAX_PASSWORD_SIZE]. *)
Definition MAX_PASSWORD_SIZE : nat := 4096.

(** A context for examples.  Like passlib's, it raises [PasswordSizeError]
    for a password of more than [MAX_PASSWORD_SIZE] characters; the digest
    of any other password is the password followed by "$" and the salt. *)
Definition example_context : CryptContext :=
  mkCryptContext
    (fun salt pw =>
       if (MAX_PASSWORD_SIZE <? String.length pw)%nat
       then Raises PasswordSizeError
       else Returns (pw +:+ "$" +:+ salt))
    (fun pw digest =>
       if (MAX_PASSWORD_SIZE <? String.length pw)%nat
       then Raises PasswordSizeError
       else Returns (String.prefix (pw +:+ "$") digest)).

(** A password of 4097 characters. *)
Fixpoint letters (n : nat) : string :=
  match n with
  | O => ""
  | S n' => "a" +:+ letters n'
  end.

Definition long_password : string := letters (S MAX_PASSWORD_SIZE).

(** *** Example runs *)

(** A user registers, deletes themself, and the name is registered again
    with the same password. *)
Definition alice_twice : list Call :=
  [Register "alice" "pw" "pw" "s1" "u1";
   DeleteCurrentUser 0 "pw";
   Register "alice" "pw" "pw" "s2" "u2"].

Definition reregistered : Db := run example_context alice_twice.

Definition one_user : Db :=
  run example_context [Register "alice" "pw" "pw" "s1" "u1"].

Definition two_users : Db :=
  run example_context
      [Register "alice" "pw" "pw" "s1" "u1";
       Register "bob" "pw2" "pw2" "s2" "u2"].

Definition alice_deleted : Db :=
  run example_context
      [Register "alice" "pw" "pw" "s1" "u1"; DeleteCurrentUser 0 "pw"].

(** *** What a later store keeps of an earlier one *)

(** Every entry of the earlier dictionary is still there, in its place
    and with the object it had, and every object of the earlier store is
    still there with its id and name, deleted if it was. *)
Definition persists (st st' : Db) : Prop :=
  users st `prefix_of` users st' /\
  forall l u, objects st !! l = Some u ->
    exists u', objects st' !! l = Some u' /\ id u' = id u /\
               name u' = name u /\ (deleted u = true -> deleted u' = true).

(** The dictionary of a store with [n] users whose ids were handed out by
    [register_new_user]: the user created by the i-th registration is under
    the key that renders [i]. *)
Definition numbered_users (n : nat) : Dict.t ref :=
  map (fun i => (pretty (Z.of_nat (S i)), i)) (seq 0 n).

End Proto.

(** ** [src/mitre/securingai/restapi/shared/s3/service.py] *)

Module S3.

(** *** [urllib.parse] of the standard library (CPython 3.11), on [str]
    arguments, for which [_coerce_args] and [_coerce_result] change nothing *)

Definition uses_netloc : list string :=
  [""; "ftp"; "http"; "gopher"; "nntp"; "telnet";
   "imap"; "wais"; "file"; "mms"; "https"; "shttp";
   "snews"; "prospero"; "rtsp"; "rtspu"; "rsync";
   "svn"; "svn+ssh"; "sftp"; "nfs"; "git"; "git+ssh";
   "ws"; "wss"].

(** Truth value of a [str]: the empty string is false. *)
Definition truthy (s : string) : bool := negb (String.eqb s "").

(** [s[:n]]. *)
Definition slice_to (n : nat) (s : string) : string := String.substring 0 n s.

Definition urlunsplit (scheme netloc url query fragment : string) : string :=
  let url :=
    if truthy netloc
       || (truthy scheme && existsb (String.eqb scheme) uses_netloc
           && negb (String.eqb (slice_to 2 url) "//"))
    then
      let url :=
        if truthy url && negb (String.eqb (slice_to 1 url) "/")
        then "/" +:+ url else url in
      "//" +:+ (if truthy netloc then netloc else "") +:+ url
    else url in
  let url := if truthy scheme then scheme +:+ ":" +:+ url else url in
  let url := if truthy query then url +:+ "?" +:+ query else url in
  let url := if truthy fragment then url +:+ "#" +:+ fragment else url in
  url.

Definition urlunparse (scheme netloc url params query fragment : string)
    : string :=
  let url := if truthy params then url +:+ ";" +:+ params else url in
  urlunsplit scheme netloc url query fragment.

(** *** S3Service *)

(** [x or ""] for an [Optional[str]]. *)
Definition or_empty (x : option string) : string :=
  match x with
  | Some s => if truthy s then s else ""
  | None => ""
  end.

Definition as_uri (bucket key : option string) : string :=
  urlunparse "s3" (or_empty bucket) (or_empty key) "" "" "".

(** What a call of the storage client can raise: [ClientError] stands for
    [botocore.exceptions.ClientError] and its subclasses, [OtherError cls]
    for an exception of a class [cls] that does not derive from it. *)
Inductive Exception : Type :=
| ClientError
| OtherError (cls : string).

(** A call returns a value or raises. *)
Inductive Outcome (A : Type) : Type :=
| Returns (a : A)
| Raises (e : Exception).

Arguments Returns {A} a.
Arguments Raises {A} e.

Inductive LogRecord : Type :=
| LogInfo (event : string)
| LogException (event : string).

Section Upload.

Variable Fileobj : Type.

(** [self._client.upload_fileobj]. *)
Variable upload_fileobj : Fileobj -> string -> string -> Outcome unit.

(** The records written to the logger, and the outcome: [except ClientError]
    handles that exception and no other. *)
Definition upload (fileobj : Fileobj) (bucket key : string)
    : list LogRecord * Outcome (option string) :=
  let log := [LogInfo "Uploading data to S3"] in
  match upload_fileobj fileobj bucket key with
  | Raises ClientError =>
      (log ++ [LogException "S3 upload failed"], Returns None)
  | Raises e => (log, Raises e)
  | Returns _ =>
      let uri := as_uri (Some bucket) (Some key) in
      (log ++ [LogInfo "S3 upload successful"], Returns (Some uri))
  end.

End Upload.

(** A client whose upload fails in the transport: botocore's
    [EndpointConnectionError] derives from [BotoCoreError], not from
    [ClientError]. *)
Definition unreachable_endpoint (_ : unit) (_ _ : string) : Outcome unit :=
  Raises (OtherError "EndpointConnectionError").

(** A client that the service rejects, for instance for a missing bucket. *)
Definition rejecting_client (_ : unit) (_ _ : string) : Outcome unit :=
  Raises ClientError.

End S3.

(** ** [examples/pytorch-detectron2-demo/src/poison_train.py] *)

Module PoisonTrain.

(** A [str] is its sequence of code points here: [str.strip] removes the
    characters that Unicode counts as whitespace, several of which lie
    outside ASCII. *)
Abbreviation str := (list N) (only parsing).

(** The characters for which [str.isspace] holds (CPython's
    [_PyUnicode_IsWhitespace]). *)
Definition is_space (c : N) : bool :=
  ((9 <=? c) && (c <=? 13) || (28 <=? c) && (c <=? 32)
   || (c =? 133) || (c =? 160) || (c =? 5760)
   || (8192 <=? c) && (c <=? 8202)
   || (c =? 8232) || (c =? 8233) || (c =? 8239) || (c =? 8287)
   || (c =? 12288))%N.

(** "," *)
Definition comma : N := 44%N.

(** [s.split(sep)] for a separator of one character: the pieces between
    the occurrences of [sep], empty pieces included. *)
Fixpoint split (sep : N) (s : str) : list str :=
  match s with
  | [] => [[]]
  | c :: s' =>
      if (c =? sep)%N then [] :: split sep s'
      else match split sep s' with
           | w :: ws => (c :: w) :: ws
           | [] => [[c]]
           end
  end.

Fixpoint lstrip (s : str) : str :=
  match s with
  | [] => []
  | c :: s' => if is_space c then lstrip s' else s
  end.

Definition rstrip (s : str) : str := rev (lstrip (rev s)).

(** [s.strip()] *)
Definition strip (s : str) : str := lstrip (rstrip s).

(** The outcome of the callback: the list, or the [AttributeError] that
    [value.split] raises when click hands over [None] for an option that
    was not given. *)
Inductive Result (A : Type) : Type :=
| Ok (a : A)
| AttributeError.

Arguments Ok {A} a.
Arguments AttributeError {A}.

(** [ctx] and [param] are not used. *)
Definition _coerce_comma_separated_values (value : option str)
    : Result (list str) :=
  match value with
  | None => AttributeError
  | Some v => Ok (map strip (split comma v))
  end.

(** [sep.join(items)], to state what the callback does to a joined list. *)
Fixpoint join (sep : N) (items : list str) : str :=
  match items with
  | [] => []
  | [x] => x
  | x :: rest => x ++ sep :: join sep rest
  end.

End PoisonTrain.

(** * Properties *)

Import Proto.

(** ** Dictionaries *)

Lemma dict_set_elem {V : Type} (k : string) (v : V) (d : Dict.t V) kv :
  kv ∈ Dict.set k v d -> kv = (k, v) \/ kv ∈ d.
Proof.
  induction d as [|[k' v'] d IH]; simpl.
  - rewrite list_elem_of_singleton. auto.
  - destruct (String.eqb k' k); rewrite !elem_of_cons; intros [H|H]; auto.
    destruct (IH H); auto.
Qed.

Lemma dict_set_new_elem {V : Type} (k : string) (v : V) (d : Dict.t V) :
  (k, v) ∈ Dict.set k v d.
Proof.
  induction d as [|[k' v'] d IH]; simpl.
  - apply list_elem_of_singleton. reflexivity.
  - destruct (String.eqb k' k); rewrite elem_of_cons; auto.
Qed.

Lemma dict_set_fresh {V : Type} (k : string) (v : V) (d : Dict.t V) :
  k ∉ Dict.keys d -> Dict.set k v d = d ++ [(k, v)].
Proof.
  induction d as [|[k' v'] d IH]; simpl; intros Hk; [reflexivity|].
  rewrite not_elem_of_cons in Hk. destruct Hk as [Hne Hk].
  destruct (String.eqb_spec k' k) as [->|_]; [congruence|].
  rewrite (IH Hk). reflexivity.
Qed.

(** Every entry other than the one written stays or was under the key
    written. *)
Lemma dict_set_old_elem {V : Type} (k : string) (v : V) (d : Dict.t V) k' v' :
  (k', v') ∈ d -> k' <> k -> (k', v') ∈ Dict.set k v d.
Proof.
  induction d as [|[k1 v1] d IH]; simpl; intros Hin Hne.
  - by apply elem_of_nil in Hin.
  - apply elem_of_cons in Hin.
    destruct (String.eqb_spec k1 k) as [->|Hk].
    + destruct Hin as [Heq|Hin]; [congruence|].
      apply elem_of_cons. auto.
    + apply elem_of_cons. destruct Hin as [Heq|Hin]; auto.
Qed.

Lemma dict_values_lookup {V : Type} (d : Dict.t V) (i : nat) (v : V) :
  Dict.values d !! i = Some v -> exists k, (k, v) ∈ d.
Proof.
  revert i. induction d as [|[k0 v0] d IH]; intros i Hi; [discriminate|].
  destruct i as [|i]; simpl in Hi.
  - injection Hi as ->. exists k0. apply list_elem_of_here.
  - destruct (IH _ Hi) as [k Hk]. exists k. by apply list_elem_of_further.
Qed.

(** ** The values of the user dictionary *)

Lemma elem_of_user_values (st : Db) (l : ref) (u : User) :
  (l, u) ∈ user_values st <->
  (exists k, (k, l) ∈ users st) /\ objects st !! l = Some u.
Proof.
  unfold user_values, Dict.values. rewrite list_elem_of_omap. split.
  - intros (l' & Hin & Hl). apply list_elem_of_fmap in Hin.
    destruct Hin as ([k l''] & -> & Hin). simpl in Hl.
    destruct (objects st !! l'') as [u'|] eqn:E; simpl in Hl; [|discriminate].
    injection Hl as <- <-. eauto.
  - intros [[k Hin] Hl]. exists l. split.
    + apply list_elem_of_fmap. exists (k, l). auto.
    + rewrite Hl. reflexivity.
Qed.

Lemma name_taken_true (nm : string) (l : ref) (u : User) :
  name_taken nm (l, u) = true <-> name u = nm /\ deleted u = false.
Proof.
  unfold name_taken. simpl.
  rewrite andb_true_iff, negb_true_iff, String.eqb_eq. reflexivity.
Qed.

(** ** Scanning with a condition *)

Lemma filter_nil_iff {A : Type} (f : A -> bool) (xs : list A) :
  List.filter f xs = [] <-> forall x, x ∈ xs -> f x = false.
Proof.
  induction xs as [|x xs IH]; simpl.
  - split; [intros _ x Hx; by apply elem_of_nil in Hx | reflexivity].
  - destruct (f x) eqn:E.
    + split; [discriminate|]. intros H.
      specialize (H x (list_elem_of_here _ _)). congruence.
    + rewrite IH. split.
      * intros H y Hy. apply elem_of_cons in Hy. destruct Hy as [->|Hy]; auto.
      * intros H y Hy. apply H. apply elem_of_cons. auto.
Qed.

Lemma filter_head_elem {A : Type} (f : A -> bool) (xs : list A) x r :
  List.filter f xs = x :: r -> x ∈ xs /\ f x = true.
Proof.
  intros H.
  assert (Hin : In x (List.filter f xs)) by (rewrite H; left; reflexivity).
  apply filter_In in Hin. rewrite <- list_elem_of_In in Hin. exact Hin.
Qed.

(** ** Attribute assignment seen through the dictionary *)

Lemma lookup_store (st : Db) (cu l : ref) (a u : User) :
  objects (store cu a st) !! l = Some u ->
  (l = cu /\ u = a) \/ (l <> cu /\ objects st !! l = Some u).
Proof.
  simpl. intros Hl. destruct (decide (l = cu)) as [->|Hne].
  - left. split; [reflexivity|].
    destruct (decide (cu < length (objects st))) as [Hlt|Hge].
    + rewrite list_lookup_insert_eq in Hl by exact Hlt. congruence.
    + rewrite list_insert_ge in Hl by lia.
      apply lookup_lt_Some in Hl. lia.
  - right. rewrite list_lookup_insert_ne in Hl by auto. auto.
Qed.

Lemma elem_of_user_values_store (st : Db) (cu l : ref) (a u : User) :
  (l, u) ∈ user_values (store cu a st) ->
  (l = cu /\ u = a) \/ (l <> cu /\ (l, u) ∈ user_values st).
Proof.
  rewrite !elem_of_user_values. intros [Hk Hl].
  destruct (lookup_store _ _ _ _ _ Hl) as [?|[? ?]]; auto.
Qed.

Lemma user_values_store (st : Db) (cu : ref) (a : User) :
  (cu < length (objects st))%nat ->
  user_values (store cu a st) =
  map (fun x => if Nat.eqb (fst x) cu then (fst x, a) else x)
      (user_values st).
Proof.
  intros Hlt. unfold user_values, omap. simpl.
  induction (Dict.values (users st)) as [|l ls IH]; simpl; [reflexivity|].
  destruct (Nat.eqb_spec l cu) as [->|Hne].
  - rewrite list_lookup_insert_eq by exact Hlt.
    destruct (lookup_lt_is_Some_2 _ _ Hlt) as [u0 Hu0]. rewrite Hu0. simpl.
    rewrite Nat.eqb_refl, IH. reflexivity.
  - rewrite list_lookup_insert_ne by auto.
    destruct (objects st !! l) as [u|]; simpl; [|exact IH].
    destruct (Nat.eqb_spec l cu); [contradiction|]. rewrite IH. reflexivity.
Qed.

(** ** Authentication *)

Section ServiceFacts.

Variable crypt : CryptContext.

Lemma authenticate_user_first (st : Db) (nm pw : string) l u r :
  List.filter (name_taken nm) (user_values st) = (l, u) :: r ->
  authenticate_user crypt st nm pw =
  match verify crypt pw (password u) with
  | Raises e => Raises e
  | Returns verified => Returns (if verified then Some l else None)
  end.
Proof. unfold authenticate_user. intros ->. reflexivity. Qed.

Lemma authenticate_user_none_taken (st : Db) (nm pw : string) :
  List.filter (name_taken nm) (user_values st) = [] ->
  authenticate_user crypt st nm pw = Returns None.
Proof. unfold authenticate_user. intros ->. reflexivity. Qed.


(** ** Password change *)

(** C2, as the code has it.  [change_password] with a current password
    that does not verify against the current user's stored hash leaves the
    store as it was: no object and no dictionary entry changes, so neither
    the stored hash nor the alternative id does.  When [verify] returns
    [False] the call returns the 403 failure; when [verify] raises, the
    exception leaves the call. *)
Theorem change_password_wrong_current (st : Db) (cu : ref) (u : User)
    (current_password new_password salt uuid : string) :
  objects st !! cu = Some u ->
  verify crypt current_password (password u) <> Returns true ->
  after (change_password crypt st cu current_password new_password salt uuid)
        st = st /\
  (verify crypt current_password (password u) = Returns false ->
   change_password crypt st cu current_password new_password salt uuid =
   Some (Returns (JsonWithCode (mkBody 403 "Password Change Failed") 403,
                  st))) /\
  (forall e,
     verify crypt current_password (password u) = Raises e ->
     change_password crypt st cu current_password new_password salt uuid =
     Some (Raises e)).
Proof.
  intros Hu Hv. unfold change_password. rewrite Hu.
  destruct (verify crypt current_password (password u)) as [[|]|e0]; simpl.
  - congruence.
  - split; [reflexivity|]. split; [reflexivity|]. discriminate.
  - split; [reflexivity|]. split; [discriminate|].
    intros e He. injection He as <-. reflexivity.
Qed.

Lemma change_password_success (st st' : Db) (cu : ref) (u : User)
    (current_password new_password salt uuid : string) :
  objects st !! cu = Some u ->
  change_password crypt st cu current_password new_password salt uuid =
  Some (Returns (password_change_successful, st')) ->
  verify crypt current_password (password u) = Returns true /\
  exists hashed,
    hash crypt salt new_password = Returns hashed /\
    st' = store cu
            (mkUser (id u) uuid (name u) hashed (deleted u))
            (store cu
               (mkUser (id u) (alternative_id u) (name u) hashed
                       (deleted u)) st).
Proof.
  intros Hu. unfold change_password. rewrite Hu.
  destruct (verify crypt current_password (password u)) as [[|]|e0]; simpl;
    [|discriminate|discriminate].
  destruct (hash crypt salt new_password) as [hashed|e0]; [|discriminate].
  intros H. injection H as <-. split; [reflexivity|]. by exists hashed.
Qed.

Lemma load_user_none (st : Db) (sid : string) :
  (forall l u, (l, u) ∈ user_values st -> alternative_id u <> sid) ->
  load_user st sid = None.
Proof.
  intros H. unfold load_user.
  replace (List.filter _ (user_values st)) with (@nil (nat * User));
    [reflexivity|].
  symmetry. apply filter_nil_iff. intros [l u] Hin. simpl.
  apply String.eqb_neq. eauto.
Qed.

(** C3.  After a successful [change_password] by a user whose alternative
    id was [A], when the generated alternative id differs from [A] and no
    other user of the store holds [A], the user has the new hash and the new
    alternative id, and [load_user A] returns [None]. *)
Theorem change_password_invalidates_session (st st' : Db) (cu : ref)
    (u : User) (current_password new_password salt uuid : string) :
  objects st !! cu = Some u ->
  change_password crypt st cu current_password new_password salt uuid =
  Some (Returns (password_change_successful, st')) ->
  uuid <> alternative_id u ->
  (forall l u', (l, u') ∈ user_values st -> l <> cu ->
                alternative_id u' <> alternative_id u) ->
  (exists hashed,
     hash crypt salt new_password = Returns hashed /\
     objects st' !! cu =
     Some (mkUser (id u) uuid (name u) hashed (deleted u))) /\
  load_user st' (alternative_id u) = None.
Proof.
  intros Hu Hcall Hfresh Hothers.
  destruct (change_password_success _ _ _ _ _ _ _ _ Hu Hcall)
    as (_ & hashed & Hh & ->).
  split.
  - exists hashed. split; [exact Hh|].
    simpl. apply list_lookup_insert_eq. rewrite length_insert.
    by apply lookup_lt_Some in Hu.
  - apply load_user_none. intros l u' Hin.
    apply elem_of_user_values_store in Hin.
    destruct Hin as [[_ ->]|[Hne Hin]]; [simpl; congruence|].
    apply elem_of_user_values_store in Hin.
    destruct Hin as [[? _]|[_ Hin]]; [contradiction|]. eauto.
Qed.

(** ** Session lookup and soft deletion *)

Lemma load_user_first (st : Db) (sid : string) xs (l : ref) (u : User) ys :
  user_values st = xs ++ (l, u) :: ys ->
  (forall x, x ∈ xs -> alternative_id (snd x) <> sid) ->
  alternative_id u = sid ->
  load_user st sid = Some l.
Proof.
  intros Hvals Hxs Hu. unfold load_user. rewrite Hvals, List.filter_app.
  replace (List.filter _ xs) with (@nil (nat * User)).
  - simpl. apply String.eqb_eq in Hu. rewrite Hu. reflexivity.
  - symmetry. apply filter_nil_iff. intros x Hx.
    apply String.eqb_neq. auto.
Qed.

Lemma delete_current_user_success (st st' : Db) (cu : ref) (u : User)
    (pw : string) :
  objects st !! cu = Some u ->
  delete_current_user crypt st cu pw = Some (Returns (user_deleted, st')) ->
  verify crypt pw (password u) = Returns true /\
  st' = store cu
          (mkUser (id u) (alternative_id u) (name u) (password u) true) st.
Proof.
  intros Hu. unfold delete_current_user. rewrite Hu.
  destruct (verify crypt pw (password u)) as [[|]|e0]; simpl;
    [|discriminate|discriminate].
  intros H. injection H as <-. auto.
Qed.

Lemma user_values_lookup (st : Db) (l : ref) (u : User) :
  (l, u) ∈ user_values st -> objects st !! l = Some u.
Proof. rewrite elem_of_user_values. tauto. Qed.

(** C10.  [load_user] does not look at the deleted flag.  In every store,
    the first record in iteration order whose alternative id is the session
    id is the one [load_user] returns, whatever its deleted flag; and after
    that user's successful [delete_current_user] the same session id still
    resolves to the record, now flagged deleted. *)
Theorem load_user_ignores_deleted (st : Db) (sid : string) xs (l : ref)
    (u : User) ys :
  user_values st = xs ++ (l, u) :: ys ->
  (forall x, x ∈ xs -> alternative_id (snd x) <> sid) ->
  alternative_id u = sid ->
  load_user st sid = Some l /\
  (forall pw st',
     delete_current_user crypt st l pw =
     Some (Returns (user_deleted, st')) ->
     load_user st' sid = Some l /\
     deleted <$> objects st' !! l = Some true).
Proof.
  intros Hvals Hxs Hu. split; [by eapply load_user_first|].
  intros pw st' Hdel.
  assert (Hin : (l, u) ∈ user_values st).
  { rewrite Hvals. apply elem_of_app. right. apply list_elem_of_here. }
  pose proof (user_values_lookup _ _ _ Hin) as Hl.
  destruct (delete_current_user_success _ _ _ _ _ Hl Hdel) as [_ ->].
  pose proof (lookup_lt_Some _ _ _ Hl) as Hlt.
  split.
  - eapply load_user_first with
      (xs := map (fun x => if Nat.eqb (fst x) l then (fst x, _) else x) xs).
    + rewrite (user_values_store _ _ _ Hlt), Hvals, map_app. simpl.
      rewrite Nat.eqb_refl. reflexivity.
    + intros x Hx. apply list_elem_of_fmap in Hx.
      destruct Hx as ([l0 u0] & -> & Hx). simpl.
      destruct (Nat.eqb_spec l0 l) as [->|_]; [|by apply (Hxs _ Hx)].
      simpl. exfalso. apply (Hxs _ Hx). simpl.
      assert (Hin0 : (l, u0) ∈ user_values st).
      { rewrite Hvals. apply elem_of_app. auto. }
      apply user_values_lookup in Hin0. congruence.
    + exact Hu.
  - simpl. rewrite list_lookup_insert_eq by exact Hlt. reflexivity.
Qed.

(** ** Registration *)

Lemma name_held_filter (st : Db) (nm : string) :
  List.filter (name_taken nm) (user_values st) = [] <-> ~ name_held st nm.
Proof.
  rewrite filter_nil_iff. unfold name_held. split.
  - intros H (l & u & Hin & Hname & Hdel).
    assert (Ht : name_taken nm (l, u) = true) by (by apply name_taken_true).
    rewrite (H _ Hin) in Ht. discriminate.
  - intros H [l u] Hin. destruct (name_taken nm (l, u)) eqn:E; [|reflexivity].
    apply name_taken_true in E. exfalso. apply H. exists l, u. tauto.
Qed.

(** The ways through [register_new_user]. *)
Lemma register_new_user_cases (st : Db) (nm pw confirm salt uuid : string) :
  (pw <> confirm /\
   register_new_user crypt st nm pw confirm salt uuid =
   Returns (password_mismatch, st)) \/
  (pw = confirm /\ name_held st nm /\
   register_new_user crypt st nm pw confirm salt uuid =
   Returns (name_not_available nm, st)) \/
  (pw = confirm /\ ~ name_held st nm /\
   exists hashed,
     hash crypt salt pw = Returns hashed /\
     register_new_user crypt st nm pw confirm salt uuid =
     Returns
       (registration_successful nm,
        mkDb (objects st ++ [new_user st nm hashed uuid])
             (Dict.set (pretty (new_id st)) (length (objects st))
                       (users st)))) \/
  (pw = confirm /\ ~ name_held st nm /\
   exists e,
     hash crypt salt pw = Raises e /\
     register_new_user crypt st nm pw confirm salt uuid = Raises e).
Proof.
  unfold register_new_user.
  destruct (String.eqb_spec pw confirm) as [Heq|Hne]; simpl; [|auto].
  right. rewrite length_map.
  destruct (List.filter (name_taken nm) (user_values st)) as [|x r] eqn:E.
  - right. apply name_held_filter in E. simpl.
    destruct (hash crypt salt pw) as [hashed|e].
    + left. split; [exact Heq|]. split; [exact E|]. by exists hashed.
    + right. split; [exact Heq|]. split; [exact E|]. by exists e.
  - left. split; [exact Heq|]. split; [|reflexivity].
    destruct x as [l u]. apply filter_head_elem in E. destruct E as [Hin Ht].
    apply name_taken_true in Ht. exists l, u. tauto.
Qed.

Lemma register_new_user_success (st st' : Db)
    (nm pw confirm salt uuid : string) :
  register_new_user crypt st nm pw confirm salt uuid =
  Returns (registration_successful nm, st') ->
  pw = confirm /\ ~ name_held st nm /\
  exists hashed,
    hash crypt salt pw = Returns hashed /\
    st' = mkDb (objects st ++ [new_user st nm hashed uuid])
               (Dict.set (pretty (new_id st)) (length (objects st))
                         (users st)).
Proof.
  destruct (register_new_user_cases st nm pw confirm salt uuid)
    as [[_ ->]|[(_ & _ & ->)|[(Heq & Hfree & hashed & Hh & ->)
                             |(_ & _ & e & _ & ->)]]].
  - discriminate.
  - discriminate.
  - intros H. injection H as <-. split; [exact Heq|]. split; [exact Hfree|].
    by exists hashed.
  - discriminate.
Qed.

Lemma elem_of_user_values_registered (st : Db) (key : string) (new : User)
    (l : ref) (u : User) :
  (l, u) ∈ user_values
             (mkDb (objects st ++ [new])
                   (Dict.set key (length (objects st)) (users st))) ->
  (l = length (objects st) /\ u = new) \/ (l, u) ∈ user_values st.
Proof.
  rewrite !elem_of_user_values. simpl. intros [[k Hk] Hl].
  destruct (decide (l < length (objects st))) as [Hlt|Hge].
  - right. rewrite lookup_app_l in Hl by exact Hlt. split; [|exact Hl].
    apply dict_set_elem in Hk. destruct Hk as [Hk|Hk]; [|eauto].
    injection Hk as _ ->. lia.
  - left. rewrite lookup_app_r in Hl by lia.
    destruct (l - length (objects st)) as [|n] eqn:E; simpl in Hl.
    + split; [lia|congruence].
    + destruct n; discriminate.
Qed.

Lemma new_in_user_values_registered (st : Db) (key : string) (new : User) :
  (length (objects st), new)
    ∈ user_values
        (mkDb (objects st ++ [new])
              (Dict.set key (length (objects st)) (users st))).
Proof.
  apply elem_of_user_values. simpl. split.
  - exists key. apply dict_set_new_elem.
  - rewrite lookup_app_r by lia. rewrite Nat.sub_diag. reflexivity.
Qed.

(** C6.  When the password primitive accepts every password against the
    hash it computed for it, a successful [register_new_user nm pw pw] is
    followed by an [authenticate_user nm pw] that returns the object created
    by the registration: a new object that holds the registered record. *)
Theorem authenticate_after_register (st st' : Db) (nm pw salt uuid : string) :
  (forall s p hashed,
     ctx_hash crypt s p = Returns hashed ->
     ctx_verify crypt p hashed = Returns true) ->
  register_new_user crypt st nm pw pw salt uuid =
  Returns (registration_successful nm, st') ->
  authenticate_user crypt st' nm pw = Returns (Some (length (objects st))) /\
  (exists hashed,
     hash crypt salt pw = Returns hashed /\
     objects st' !! length (objects st) =
     Some (mkUser (new_id st) uuid nm hashed false)) /\
  objects st !! length (objects st) = None.
Proof.
  intros Hlaw Hreg.
  destruct (register_new_user_success _ _ _ _ _ _ _ Hreg)
    as (_ & Hfree & hashed & Hh & ->).
  split; [|split].
  - destruct (List.filter (name_taken nm)
                (user_values
                   (mkDb (objects st ++ [new_user st nm hashed uuid])
                         (Dict.set (pretty (new_id st)) (length (objects st))
                                   (users st)))))
      as [|[l u] r] eqn:E.
    + exfalso. rewrite filter_nil_iff in E.
      specialize (E _ (new_in_user_values_registered st
                         (pretty (new_id st))
                         (new_user st nm hashed uuid))).
      unfold name_taken in E. simpl in E.
      rewrite String.eqb_refl in E. discriminate.
    + rewrite (authenticate_user_first _ _ pw _ _ _ E).
      apply filter_head_elem in E. destruct E as [Hin Ht].
      apply name_taken_true in Ht.
      apply elem_of_user_values_registered in Hin.
      destruct Hin as [[-> ->]|Hin].
      * simpl. unfold verify. rewrite (Hlaw _ _ _ Hh). reflexivity.
      * exfalso. apply Hfree. exists l, u. tauto.
  - exists hashed. split; [exact Hh|].
    simpl. rewrite lookup_app_r by lia. rewrite Nat.sub_diag. reflexivity.
  - apply lookup_ge_None. lia.
Qed.

Lemma name_held_registered (st : Db) (nm hashed uuid : string) :
  name_held
    (mkDb (objects st ++ [new_user st nm hashed uuid])
          (Dict.set (pretty (new_id st)) (length (objects st)) (users st)))
    nm.
Proof.
  exists (length (objects st)), (new_user st nm hashed uuid).
  split; [apply new_in_user_values_registered|]. auto.
Qed.

Lemma fails_403_iff (st : Db) (nm pw confirm salt uuid : string) :
  fails_403 (register_new_user crypt st nm pw confirm salt uuid) <->
  pw <> confirm \/ name_held st nm.
Proof.
  destruct (register_new_user_cases st nm pw confirm salt uuid)
    as [[Hne ->]|[(Heq & Hheld & ->)|[(Heq & Hfree & hashed & _ & ->)
                                     |(Heq & Hfree & e & _ & ->)]]].
  - split; [auto|]. intros _. eexists _, _. split; [reflexivity|].
    eexists. reflexivity.
  - split; [auto|]. intros _. eexists _, _. split; [reflexivity|].
    eexists. reflexivity.
  - split.
    + intros (r & st' & H & [m Hm]). injection H as <- _. discriminate.
    + intros [H|H]; contradiction.
  - split.
    + intros (r & st' & H & _). discriminate.
    + intros [H|H]; contradiction.
Qed.

Lemma fails_403_settled (st : Db) (nm pw confirm salt uuid : string) :
  fails_403 (register_new_user crypt st nm pw confirm salt uuid) ->
  settled (register_new_user crypt st nm pw confirm salt uuid) st = st.
Proof.
  destruct (register_new_user_cases st nm pw confirm salt uuid)
    as [[Hne ->]|[(Heq & Hheld & ->)|[(Heq & Hfree & hashed & _ & ->)
                                     |(Heq & Hfree & e & _ & ->)]]];
    simpl; auto.
  intros (r & st' & H & [m Hm]). injection H as <- _. discriminate.
Qed.

(** C4, as the code has it.  [register_new_user] fails with a 403 result
    exactly when the confirmation differs from the password or a
    non-deleted user holds the name, and a failed call leaves the store as
    it was.  After a successful registration of a name, every further
    registration of that name fails with 403 and changes nothing, with the
    name-not-available message when its confirmation matches.  Once the
    holder has deleted themself, a registration of the name with a matching
    confirmation succeeds when [hash] returns; when [hash] raises, the
    exception leaves the call. *)
Theorem register_new_user_conflict :
  (forall st nm pw confirm salt uuid,
     fails_403 (register_new_user crypt st nm pw confirm salt uuid) <->
     pw <> confirm \/ name_held st nm) /\
  (forall st nm pw confirm salt uuid,
     fails_403 (register_new_user crypt st nm pw confirm salt uuid) ->
     settled (register_new_user crypt st nm pw confirm salt uuid) st = st) /\
  (forall st nm pw confirm salt uuid st1,
     register_new_user crypt st nm pw confirm salt uuid =
     Returns (registration_successful nm, st1) ->
     forall pw2 confirm2 salt2 uuid2,
       fails_403 (register_new_user crypt st1 nm pw2 confirm2 salt2 uuid2) /\
       settled (register_new_user crypt st1 nm pw2 confirm2 salt2 uuid2) st1 =
       st1 /\
       (pw2 = confirm2 ->
        register_new_user crypt st1 nm pw2 confirm2 salt2 uuid2 =
        Returns (name_not_available nm, st1))) /\
  (forall st nm pw confirm salt uuid st1 cu u pwd st2,
     register_new_user crypt st nm pw confirm salt uuid =
     Returns (registration_successful nm, st1) ->
     (cu, u) ∈ user_values st1 -> name u = nm -> deleted u = false ->
     delete_current_user crypt st1 cu pwd =
     Some (Returns (user_deleted, st2)) ->
     forall pw2 salt2 uuid2,
       (forall hashed,
          hash crypt salt2 pw2 = Returns hashed ->
          exists st3,
            register_new_user crypt st2 nm pw2 pw2 salt2 uuid2 =
            Returns (registration_successful nm, st3)) /\
       (forall e,
          hash crypt salt2 pw2 = Raises e ->
          register_new_user crypt st2 nm pw2 pw2 salt2 uuid2 = Raises e)).
Proof.
  split; [exact fails_403_iff|]. split; [exact fails_403_settled|]. split.
  - intros st nm pw confirm salt uuid st1 Hreg pw2 confirm2 salt2 uuid2.
    destruct (register_new_user_success _ _ _ _ _ _ _ Hreg)
      as (_ & _ & hashed & _ & ->).
    pose proof (name_held_registered st nm hashed uuid) as Hheld.
    assert (Hforb : fails_403 (register_new_user crypt
              (mkDb (objects st ++ [new_user st nm hashed uuid])
                    (Dict.set (pretty (new_id st)) (length (objects st))
                              (users st)))
              nm pw2 confirm2 salt2 uuid2)) by (apply fails_403_iff; auto).
    split; [exact Hforb|]. split; [by apply fails_403_settled|].
    intros Heq2.
    destruct (register_new_user_cases
                (mkDb (objects st ++ [new_user st nm hashed uuid])
                      (Dict.set (pretty (new_id st)) (length (objects st))
                                (users st)))
                nm pw2 confirm2 salt2 uuid2)
      as [[Hne _]|[(_ & _ & Hr)|[(_ & Hfree & _)|(_ & Hfree & _)]]];
      [contradiction|exact Hr|contradiction|contradiction].
  - intros st nm pw confirm salt uuid st1 cu u pwd st2 Hreg Hin Hname Hdel
           Hcall pw2 salt2 uuid2.
    destruct (register_new_user_success _ _ _ _ _ _ _ Hreg)
      as (_ & Hfree & hashed & _ & ->).
    pose proof (user_values_lookup _ _ _ Hin) as Hcu.
    destruct (delete_current_user_success _ _ _ _ _ Hcu Hcall) as [_ ->].
    assert (Hnew : cu = length (objects st)).
    { apply elem_of_user_values_registered in Hin.
      destruct Hin as [[-> _]|Hin]; [reflexivity|].
      exfalso. apply Hfree. exists cu, u. tauto. }
    match goal with
    | |- (forall h, _ -> exists st3,
            register_new_user _ ?s _ _ _ _ _ = _) /\ _ =>
        destruct (register_new_user_cases s nm pw2 pw2 salt2 uuid2)
          as [[Hne _]|[(_ & Hheld & _)|[(_ & _ & h2 & Hh2 & ->)
                                       |(_ & _ & e2 & He2 & ->)]]]
    end.
    + congruence.
    + exfalso. destruct Hheld as (l & u2 & Hin2 & Hname2 & Hdel2).
      apply elem_of_user_values_store in Hin2.
      destruct Hin2 as [[_ ->]|[Hne Hin2]]; [discriminate|].
      apply elem_of_user_values_registered in Hin2.
      destruct Hin2 as [[-> _]|Hin2]; [congruence|].
      apply Hfree. exists l, u2. tauto.
    + split; [intros h _; eexists; reflexivity|].
      intros e He. congruence.
    + split; [intros h Hh; congruence|].
      intros e He. congruence.
Qed.

(** ** The next id *)

Lemma py_max_le (x : Z) (xs : list Z) : (x <= py_max x xs)%Z.
Proof.
  unfold py_max. revert x.
  induction xs as [|y ys IH]; intros x; simpl; [lia|].
  specialize (IH (Z.max x y)). lia.
Qed.

Lemma py_max_ge_elem (x : Z) (xs : list Z) (y : Z) :
  y ∈ xs -> (y <= py_max x xs)%Z.
Proof.
  unfold py_max. revert x.
  induction xs as [|z zs IH]; intros x Hy; simpl.
  - by apply elem_of_nil in Hy.
  - apply elem_of_cons in Hy. destruct Hy as [->|Hy]; [|by apply IH].
    pose proof (py_max_le (Z.max x z) zs) as H. unfold py_max in H. lia.
Qed.

Lemma py_max_attained (x : Z) (xs : list Z) :
  py_max x xs = x \/ py_max x xs ∈ xs.
Proof.
  unfold py_max. revert x.
  induction xs as [|z zs IH]; intros x; simpl; [auto|].
  destruct (IH (Z.max x z)) as [H|H].
  - rewrite H. destruct (Z.max_spec x z) as [[_ ->]|[_ ->]].
    + right. apply list_elem_of_here.
    + auto.
  - right. by apply list_elem_of_further.
Qed.

Lemma new_id_gt (st : Db) (l : ref) (u : User) :
  (l, u) ∈ user_values st -> (id u < new_id st)%Z.
Proof.
  intros Hin. unfold new_id.
  assert (H : (id u <= py_max 0 (map (fun x => id (snd x))
                                     (user_values st)))%Z).
  { apply py_max_ge_elem. apply list_elem_of_fmap. exists (l, u). auto. }
  lia.
Qed.

Lemma new_id_positive (st : Db) : (1 <= new_id st)%Z.
Proof.
  unfold new_id.
  pose proof (py_max_le 0 (map (fun x => id (snd x)) (user_values st))).
  lia.
Qed.

Lemma new_id_attained (st : Db) :
  ids_positive st -> user_values st <> [] ->
  exists l u, (l, u) ∈ user_values st /\ new_id st = (id u + 1)%Z.
Proof.
  intros Hpos Hne. unfold new_id.
  destruct (py_max_attained 0 (map (fun x => id (snd x)) (user_values st)))
    as [H0|Hin].
  - exfalso. destruct (user_values st) as [|[l u] r] eqn:E; [congruence|].
    assert (Hin : (l, u) ∈ user_values st)
      by (rewrite E; apply list_elem_of_here).
    pose proof (Hpos _ _ Hin) as H1.
    pose proof (new_id_gt _ _ _ Hin) as H2.
    unfold new_id in H2. rewrite E in H2. lia.
  - apply list_elem_of_fmap in Hin. destruct Hin as ([l u] & Heq & Hin).
    exists l, u. split; [exact Hin|]. simpl in Heq. lia.
Qed.

(** ** Registration in a well-formed store *)

Lemma new_key_fresh (st : Db) :
  refs_live st -> keys_match st ->
  pretty (new_id st) ∉ Dict.keys (users st).
Proof.
  intros Hlive Hkeys Hin. unfold Dict.keys in Hin.
  apply list_elem_of_fmap in Hin. destruct Hin as ([k l] & Hk & Hin).
  simpl in Hk. subst k.
  destruct (lookup_lt_is_Some_2 _ _ (Hlive _ _ Hin)) as [u Hu].
  pose proof (Hkeys _ _ _ Hin Hu) as Heq.
  apply (inj pretty) in Heq.
  assert (Hval : (l, u) ∈ user_values st)
    by (apply elem_of_user_values; eauto).
  apply new_id_gt in Hval. lia.
Qed.

Lemma user_values_snoc (st : Db) (key : string) (new : User) :
  refs_live st ->
  user_values (mkDb (objects st ++ [new])
                    (users st ++ [(key, length (objects st))])) =
  user_values st ++ [(length (objects st), new)].
Proof.
  intros Hlive. unfold user_values, Dict.values. simpl.
  rewrite map_app, omap_app. f_equal.
  - apply list_omap_ext. apply Forall2_same_length_lookup.
    split; [reflexivity|]. intros i l l' Hl Hl'.
    assert (l' = l) as -> by congruence.
    rewrite lookup_app_l; [reflexivity|].
    destruct (dict_values_lookup _ _ _ Hl) as [k Hk]. by apply (Hlive k).
  - simpl. rewrite lookup_app_r by lia. rewrite Nat.sub_diag. reflexivity.
Qed.


(** ** The invariants hold in every store the service can be in *)

Lemma store_ok_db : store_ok db.
Proof.
  split.
  - intros k l Hin. by apply elem_of_nil in Hin.
  - intros k l u Hin. by apply elem_of_nil in Hin.
  - intros l u Hin. by apply elem_of_nil in Hin.
  - intros l1 u1 l2 u2 Hin. by apply elem_of_nil in Hin.
Qed.

Lemma user_values_store_back (st : Db) (cu l : ref) (a u0 u : User) :
  objects st !! cu = Some u0 ->
  (l, u) ∈ user_values (store cu a st) ->
  exists u', (l, u') ∈ user_values st /\
             ((l = cu /\ u = a /\ u' = u0) \/ (l <> cu /\ u' = u)).
Proof.
  intros Hcu Hin.
  pose proof (proj1 (elem_of_user_values _ _ _) Hin) as [Hk _].
  simpl in Hk.
  destruct (elem_of_user_values_store _ _ _ _ _ Hin) as [[-> ->]|[Hne Hin']].
  - exists u0. split; [|auto]. apply elem_of_user_values. auto.
  - exists u. auto.
Qed.

Lemma store_ok_store (st : Db) (cu : ref) (a u0 : User) :
  store_ok st -> objects st !! cu = Some u0 ->
  id a = id u0 -> name a = name u0 ->
  (deleted a = false -> deleted u0 = false) ->
  store_ok (store cu a st).
Proof.
  intros [Hlive Hkeys Hpos Huniq] Hcu Hid Hname Hdel. split.
  - intros k l Hin. simpl. rewrite length_insert. by apply (Hlive k).
  - intros k l u Hin Hl. simpl in Hin.
    destruct (lookup_store _ _ _ _ _ Hl) as [[-> ->]|[_ Hl']].
    + rewrite Hid. by apply (Hkeys k cu).
    + by apply (Hkeys k l).
  - intros l u Hin.
    destruct (user_values_store_back _ _ _ _ _ _ Hcu Hin)
      as (u' & Hin' & [(-> & -> & ->)|[_ ->]]).
    + rewrite Hid. by apply (Hpos cu).
    + by apply (Hpos l).
  - intros l1 u1 l2 u2 Hin1 Hin2 Hnm Hd1 Hd2.
    destruct (user_values_store_back _ _ _ _ _ _ Hcu Hin1)
      as (u1' & Hin1' & H1).
    destruct (user_values_store_back _ _ _ _ _ _ Hcu Hin2)
      as (u2' & Hin2' & H2).
    apply (Huniq l1 u1' l2 u2' Hin1' Hin2').
    + destruct H1 as [(_ & -> & ->)|[_ ->]];
        destruct H2 as [(_ & -> & ->)|[_ ->]]; congruence.
    + destruct H1 as [(_ & -> & ->)|[_ ->]]; auto.
    + destruct H2 as [(_ & -> & ->)|[_ ->]]; auto.
Qed.

Lemma store_ok_registered (st : Db) (nm hashed uuid : string) :
  store_ok st -> ~ name_held st nm ->
  store_ok (mkDb (objects st ++ [new_user st nm hashed uuid])
                 (Dict.set (pretty (new_id st)) (length (objects st))
                           (users st))).
Proof.
  intros [Hlive Hkeys Hpos Huniq] Hfree.
  rewrite (dict_set_fresh _ _ _ (new_key_fresh _ Hlive Hkeys)).
  assert (Hvals := user_values_snoc st (pretty (new_id st))
                     (new_user st nm hashed uuid) Hlive).
  split.
  - intros k l Hin. simpl in *. rewrite length_app. simpl.
    apply elem_of_app in Hin. destruct Hin as [Hin|Hin].
    + pose proof (Hlive _ _ Hin). lia.
    + apply list_elem_of_singleton in Hin. injection Hin as _ ->. lia.
  - intros k l u Hin Hl. simpl in *.
    apply elem_of_app in Hin. destruct Hin as [Hin|Hin].
    + rewrite lookup_app_l in Hl by (by apply (Hlive k)).
      by apply (Hkeys k l).
    + apply list_elem_of_singleton in Hin. injection Hin as -> ->.
      rewrite lookup_app_r in Hl by lia. rewrite Nat.sub_diag in Hl.
      simpl in Hl. injection Hl as <-. reflexivity.
  - intros l u Hin. rewrite Hvals in Hin.
    apply elem_of_app in Hin. destruct Hin as [Hin|Hin].
    + by apply (Hpos l).
    + apply list_elem_of_singleton in Hin. injection Hin as _ ->.
      simpl. apply new_id_positive.
  - intros l1 u1 l2 u2 Hin1 Hin2 Hnm Hd1 Hd2.
    rewrite Hvals in Hin1, Hin2.
    apply elem_of_app in Hin1. apply elem_of_app in Hin2.
    destruct Hin1 as [Hin1|Hin1]; destruct Hin2 as [Hin2|Hin2].
    + by apply (Huniq l1 u1 l2 u2).
    + apply list_elem_of_singleton in Hin2. injection Hin2 as _ ->.
      exfalso. apply Hfree. exists l1, u1. simpl in Hnm. auto.
    + apply list_elem_of_singleton in Hin1. injection Hin1 as _ ->.
      exfalso. apply Hfree. exists l2, u2. simpl in Hnm. auto.
    + apply list_elem_of_singleton in Hin1.
      apply list_elem_of_singleton in Hin2. congruence.
Qed.

Lemma store_ok_register_new_user (st : Db)
    (nm pw confirm salt uuid : string) :
  store_ok st ->
  store_ok (settled (register_new_user crypt st nm pw confirm salt uuid) st).
Proof.
  intros Hok.
  destruct (register_new_user_cases st nm pw confirm salt uuid)
    as [[_ ->]|[(_ & _ & ->)|[(_ & Hfree & hashed & _ & ->)
                             |(_ & _ & e & _ & ->)]]]; simpl; auto.
  by apply store_ok_registered.
Qed.

Lemma store_ok_change_password (st : Db) (cu : ref)
    (current_password new_password salt uuid : string) :
  store_ok st ->
  store_ok (after (change_password crypt st cu current_password
                     new_password salt uuid) st).
Proof.
  intros Hok. unfold change_password.
  destruct (objects st !! cu) as [u|] eqn:Hcu; [|exact Hok].
  destruct (verify crypt current_password (password u)) as [[|]|e0]; simpl;
    [|exact Hok|exact Hok].
  destruct (hash crypt salt new_password) as [hashed|e0]; simpl;
    [|exact Hok].
  set (u1 := mkUser (id u) (alternative_id u) (name u) hashed (deleted u)).
  apply (store_ok_store _ cu _ u1); simpl; auto.
  - apply (store_ok_store _ cu u1 u); auto.
  - apply list_lookup_insert_eq. by apply lookup_lt_Some in Hcu.
Qed.

Lemma store_ok_delete_current_user (st : Db) (cu : ref) (pw : string) :
  store_ok st -> store_ok (after (delete_current_user crypt st cu pw) st).
Proof.
  intros Hok. unfold delete_current_user.
  destruct (objects st !! cu) as [u|] eqn:Hcu; [|exact Hok].
  destruct (verify crypt pw (password u)) as [[|]|e0]; simpl;
    [|exact Hok|exact Hok].
  apply (store_ok_store _ cu _ u); simpl; auto. discriminate.
Qed.

Lemma store_ok_logout (st : Db) (cu : ref) (everywhere : bool)
    (uuid : string) :
  store_ok st -> store_ok (after_logout (logout st cu everywhere uuid) st).
Proof.
  intros Hok. unfold logout. destruct everywhere; [|exact Hok].
  destruct (objects st !! cu) as [u|] eqn:Hcu; [|exact Hok]. simpl.
  apply (store_ok_store _ cu _ u); simpl; auto.
Qed.

Lemma store_ok_exec (st : Db) (c : Call) :
  store_ok st -> store_ok (exec crypt st c).
Proof.
  intros Hok. destruct c; simpl.
  - by apply store_ok_register_new_user.
  - destruct (held st cu); [by apply store_ok_change_password|exact Hok].
  - destruct (held st cu); [by apply store_ok_delete_current_user|exact Hok].
  - destruct (held st cu); [by apply store_ok_logout|exact Hok].
Qed.

Lemma reachable_store_ok (st : Db) : reachable crypt st -> store_ok st.
Proof.
  intros [calls <-]. unfold run.
  generalize store_ok_db. generalize db.
  induction calls as [|c calls IH]; intros st0 Hok; simpl; [exact Hok|].
  apply IH. by apply store_ok_exec.
Qed.

(** ** Soft deletion and authentication *)

Lemma authenticate_user_some (st : Db) (nm pw : string) (l : ref) :
  authenticate_user crypt st nm pw = Returns (Some l) ->
  exists u, (l, u) ∈ user_values st /\ name u = nm /\ deleted u = false /\
            verify crypt pw (password u) = Returns true.
Proof.
  unfold authenticate_user.
  destruct (List.filter (name_taken nm) (user_values st))
    as [|[l0 u0] r] eqn:E; [discriminate|].
  destruct (verify crypt pw (password u0)) as [[|]|e0] eqn:Hv;
    [|discriminate|discriminate].
  intros H. injection H as <-.
  apply filter_head_elem in E. destruct E as [Hin Ht].
  apply name_taken_true in Ht. exists u0. tauto.
Qed.

Lemma authenticate_user_not_held (st : Db) (nm pw : string) :
  ~ name_held st nm -> authenticate_user crypt st nm pw = Returns None.
Proof.
  intros H. apply authenticate_user_none_taken. by apply name_held_filter.
Qed.

(** C7, as the code has it.  A successful [delete_current_user] keeps the
    dictionary as it is and changes one object, the current user's: its
    deleted flag is set, its other fields and all other objects stay.
    [authenticate_user] with the user's name never returns the deleted
    record; and when the user was not deleted before the call, in a store
    where at most one non-deleted user holds a name, it returns [None]
    whatever the password. *)
Theorem delete_current_user_soft (st st' : Db) (k : string) (cu : ref)
    (u : User) (pw : string) :
  names_unique st ->
  (k, cu) ∈ users st ->
  objects st !! cu = Some u ->
  delete_current_user crypt st cu pw = Some (Returns (user_deleted, st')) ->
  users st' = users st /\
  objects st' =
  <[cu := mkUser (id u) (alternative_id u) (name u) (password u) true]>
    (objects st) /\
  objects st' !! cu =
  Some (mkUser (id u) (alternative_id u) (name u) (password u) true) /\
  (forall l, l <> cu -> objects st' !! l = objects st !! l) /\
  (forall pw',
     authenticate_user crypt st' (name u) pw' <> Returns (Some cu)) /\
  (deleted u = false ->
   forall pw', authenticate_user crypt st' (name u) pw' = Returns None).
Proof.
  intros Huniq Hk Hcu Hcall.
  destruct (delete_current_user_success _ _ _ _ _ Hcu Hcall) as [_ ->].
  pose proof (lookup_lt_Some _ _ _ Hcu) as Hlt.
  split; [reflexivity|]. split; [reflexivity|].
  split; [by apply list_lookup_insert_eq|].
  split; [intros l Hne; apply list_lookup_insert_ne; auto|].
  split.
  - intros pw' Hauth. apply authenticate_user_some in Hauth.
    destruct Hauth as (u' & Hin & _ & Hdel & _).
    apply elem_of_user_values_store in Hin.
    destruct Hin as [[_ ->]|[Hne _]]; [discriminate|congruence].
  - intros Hlive pw'. apply authenticate_user_not_held.
    intros (l & u' & Hin & Hname & Hdel).
    apply elem_of_user_values_store in Hin.
    destruct Hin as [[_ ->]|[Hne Hin]]; [discriminate|].
    apply Hne. apply (Huniq l u' cu u); auto.
    apply elem_of_user_values. eauto.
Qed.

End ServiceFacts.

(** ** Examples on concrete stores *)

Lemma prefix_own_digest (pw salt : string) :
  String.prefix (pw +:+ "$") (pw +:+ "$" +:+ salt) = true.
Proof.
  induction pw as [|a pw IH]; simpl.
  - by destruct salt.
  - destruct (Ascii.ascii_dec a a) as [_|Hne]; [exact IH|].
    exfalso. by apply Hne.
Qed.

(** The example context verifies every password against the hash it
    computed for it. *)
Lemma example_context_accepts (salt pw hashed : string) :
  ctx_hash example_context salt pw = Returns hashed ->
  ctx_verify example_context pw hashed = Returns true.
Proof.
  unfold example_context, ctx_hash, ctx_verify.
  destruct (MAX_PASSWORD_SIZE <? String.length pw)%nat; [discriminate|].
  intros H. injection H as <-. f_equal. apply prefix_own_digest.
Qed.

(** Replaces the values of a concrete store by their list. *)
Ltac eval_values H st :=
  let v := eval vm_compute in (user_values st) in
  change (user_values st) with v in H.



Lemma change_password_wrong_current_witness :
  change_password example_context one_user 0 "wrong" "new" "s9" "u9" =
  Some (Returns (JsonWithCode (mkBody 403 "Password Change Failed") 403,
                 one_user)).
Proof.
  refine (proj1 (proj2 (change_password_wrong_current example_context
                          one_user 0%nat
                          (mkUser 1 "u1" "alice" "pw$s1" false)
                          "wrong" "new" "s9" "u9" _ _)) _).
  - reflexivity.
  - intros H. vm_compute in H. discriminate.
  - reflexivity.
Defined.

(** A current password of 4097 characters does not verify, and the call
    raises where the claim has it return the 403 failure. *)
Lemma change_password_long_password_counterexample :
  change_password example_context one_user 0 long_password "new" "s9" "u9" =
  Some (Raises PasswordSizeError) /\
  change_password example_context one_user 0 long_password "new" "s9" "u9" <>
  Some (Returns (JsonWithCode (mkBody 403 "Password Change Failed") 403,
                 one_user)).
Proof.
  assert (H : change_password example_context one_user 0 long_password
                "new" "s9" "u9" = Some (Raises PasswordSizeError))
    by (vm_compute; reflexivity).
  split; [exact H|]. rewrite H. discriminate.
Qed.

Lemma change_password_invalidates_session_witness :
  load_user
    (after (change_password example_context two_users 1 "pw2" "new" "s3" "u3")
           two_users)
    "u2" = None.
Proof.
  refine (proj2 (change_password_invalidates_session example_context
                   two_users _ 1 (mkUser 2 "u2" "bob" "pw2$s2" false)
                   "pw2" "new" "s3" "u3" _ _ _ _)).
  - reflexivity.
  - reflexivity.
  - discriminate.
  - intros l u' Hin Hne. eval_values Hin two_users.
    apply elem_of_cons in Hin. destruct Hin as [Hin|Hin].
    + injection Hin as _ ->. discriminate.
    + apply list_elem_of_singleton in Hin. injection Hin as -> _.
      contradiction.
Defined.

Lemma register_new_user_conflict_witness :
  register_new_user example_context one_user "alice" "pw9" "pw9" "s9" "u9" =
  Returns (name_not_available "alice", one_user) /\
  exists st3,
    register_new_user example_context alice_deleted
      "alice" "pw" "pw" "s2" "u2" =
    Returns (registration_successful "alice", st3).
Proof.
  destruct (register_new_user_conflict example_context)
    as (_ & _ & Htwice & Hagain).
  split.
  - apply (Htwice db "alice" "pw" "pw" "s1" "u1" one_user); reflexivity.
  - apply (proj1 (Hagain db "alice" "pw" "pw" "s1" "u1" one_user 0%nat
                    (mkUser 1 "u1" "alice" "pw$s1" false) "pw" alice_deleted
                    eq_refl (list_elem_of_here _ _) eq_refl eq_refl eq_refl
                    "pw" "s2" "u2") "pw$s2").
    reflexivity.
Defined.

(** Alice has registered and deleted themself; a registration of the name
    with a password of 4097 characters, confirmed, raises where the claim
    has it succeed. *)
Lemma register_new_user_long_password_counterexample :
  alice_deleted =
  mkDb [mkUser 1 "u1" "alice" "pw$s1" true] [("1", 0%nat)] /\
  register_new_user example_context alice_deleted
    "alice" long_password long_password "s2" "u2" =
  Raises PasswordSizeError.
Proof. split; vm_compute; reflexivity. Qed.


Lemma authenticate_after_register_witness :
  authenticate_user example_context
    (settled (register_new_user example_context two_users
                "carol" "pw3" "pw3" "s3" "u3") two_users)
    "carol" "pw3" = Returns (Some 2%nat).
Proof.
  refine (proj1 (authenticate_after_register example_context two_users _
                   "carol" "pw3" "s3" "u3" _ _)).
  - intros s q hashed. apply example_context_accepts.
  - reflexivity.
Defined.

Lemma delete_current_user_soft_witness :
  objects alice_deleted !! 0%nat =
  Some (mkUser 1 "u1" "alice" "pw$s1" true) /\
  forall pw', authenticate_user example_context alice_deleted "alice" pw' =
              Returns None.
Proof.
  destruct (delete_current_user_soft example_context one_user alice_deleted
              "1" 0%nat (mkUser 1 "u1" "alice" "pw$s1" false) "pw")
    as (_ & _ & Hrecord & _ & _ & Hnone).
  - apply (ok_names _ (reachable_store_ok example_context one_user
                         (ex_intro _ [Register "alice" "pw" "pw" "s1" "u1"]
                                   eq_refl))).
  - apply list_elem_of_here.
  - reflexivity.
  - reflexivity.
  - split; [exact Hrecord|]. apply Hnone. reflexivity.
Defined.

(** The store after the run [alice_twice] is one the service reaches; the
    first alice, deleted already, deletes themself again with success, and
    [authenticate_user] with that name and password returns the second
    alice. *)
Lemma delete_current_user_reauthenticate_counterexample :
  reachable example_context reregistered /\
  reregistered =
  mkDb [mkUser 1 "u1" "alice" "pw$s1" true;
        mkUser 2 "u2" "alice" "pw$s2" false]
       [("1", 0%nat); ("2", 1%nat)] /\
  delete_current_user example_context reregistered 0 "pw" =
  Some (Returns (user_deleted, reregistered)) /\
  authenticate_user example_context reregistered "alice" "pw" =
  Returns (Some 1%nat).
Proof.
  split; [exists alice_twice; reflexivity|]. repeat split.
Qed.

Lemma load_user_ignores_deleted_witness :
  deleted <$> objects alice_deleted !! 0%nat = Some true /\
  load_user alice_deleted "u1" = Some 0%nat.
Proof.
  split; [reflexivity|].
  refine (proj1 (load_user_ignores_deleted example_context alice_deleted
                   "u1" [] 0%nat (mkUser 1 "u1" "alice" "pw$s1" true) []
                   _ _ _)).
  - reflexivity.
  - intros x Hx. by apply elem_of_nil in Hx.
  - reflexivity.
Defined.

(** ** The object-storage uploader *)

(** C8, as the code has it.  [as_uri(bucket="b", key="k")] is "s3://b/k".
    [as_uri(None, None)] does not raise and puts empty strings for the
    missing values, as [as_uri("", "")] does; with an empty bucket and an
    empty path [urlunparse] writes no "//" for a scheme outside
    [uses_netloc], so the result is "s3:". *)
Theorem as_uri_examples :
  S3.as_uri (Some "b") (Some "k") = "s3://b/k" /\
  S3.as_uri None None = "s3:" /\
  S3.as_uri None None = S3.as_uri (Some "") (Some "").
Proof. repeat split. Qed.

Lemma as_uri_none_counterexample : S3.as_uri None None <> "s3:///".
Proof. discriminate. Qed.

(** C9, as the code has it.  [upload] returns [as_uri(bucket, key)] when the
    client's upload returns, it returns [None] when the client raises
    [ClientError], and an exception of any other class leaves [upload]
    unhandled. *)
Theorem upload_outcomes (Fileobj : Type)
    (upload_fileobj : Fileobj -> string -> string -> S3.Outcome unit)
    (fileobj : Fileobj) (bucket key : string) :
  (forall r, upload_fileobj fileobj bucket key = S3.Returns r ->
     snd (S3.upload Fileobj upload_fileobj fileobj bucket key) =
     S3.Returns (Some (S3.as_uri (Some bucket) (Some key)))) /\
  (upload_fileobj fileobj bucket key = S3.Raises S3.ClientError ->
     snd (S3.upload Fileobj upload_fileobj fileobj bucket key) =
     S3.Returns None) /\
  (forall cls,
     upload_fileobj fileobj bucket key = S3.Raises (S3.OtherError cls) ->
     snd (S3.upload Fileobj upload_fileobj fileobj bucket key) =
     S3.Raises (S3.OtherError cls)).
Proof.
  unfold S3.upload. repeat split.
  - intros r ->. reflexivity.
  - intros ->. reflexivity.
  - intros cls ->. reflexivity.
Qed.

Lemma upload_transport_failure_counterexample :
  snd (S3.upload unit S3.unreachable_endpoint tt "b" "k") =
  S3.Raises (S3.OtherError "EndpointConnectionError") /\
  snd (S3.upload unit S3.unreachable_endpoint tt "b" "k") <> S3.Returns None.
Proof. split; [reflexivity|discriminate]. Qed.

Lemma upload_outcomes_witness :
  snd (S3.upload unit S3.rejecting_client tt "b" "k") = S3.Returns None.
Proof.
  apply (proj1 (proj2 (upload_outcomes unit S3.rejecting_client tt "b" "k"))).
  reflexivity.
Defined.

(** * Further properties of the services *)

Section RunFacts.

Variable crypt : CryptContext.

(** ** What no call undoes *)

Lemma persists_refl (st : Db) : persists st st.
Proof. split; [reflexivity|]. intros l u Hl. exists u. auto. Qed.

Lemma persists_trans (st1 st2 st3 : Db) :
  persists st1 st2 -> persists st2 st3 -> persists st1 st3.
Proof.
  intros [Hk12 Ho12] [Hk23 Ho23]. split; [by etrans|].
  intros l u Hl.
  destruct (Ho12 _ _ Hl) as (u2 & Hl2 & Hid2 & Hnm2 & Hd2).
  destruct (Ho23 _ _ Hl2) as (u3 & Hl3 & Hid3 & Hnm3 & Hd3).
  exists u3. repeat split; [exact Hl3|congruence|congruence|auto].
Qed.

Lemma persists_store (st : Db) (cu : ref) (a u0 : User) :
  objects st !! cu = Some u0 ->
  id a = id u0 -> name a = name u0 ->
  (deleted u0 = true -> deleted a = true) ->
  persists st (store cu a st).
Proof.
  intros Hcu Hid Hname Hdel. split; [reflexivity|].
  intros l u Hl. simpl. destruct (decide (l = cu)) as [->|Hne].
  - exists a. rewrite list_lookup_insert_eq by (by apply lookup_lt_Some in Hcu).
    assert (u = u0) as -> by congruence. auto.
  - exists u. rewrite list_lookup_insert_ne by auto. auto.
Qed.

(** The key of a registration is new in a store that satisfies the
    invariants, so the assignment to the dictionary appends. *)
Lemma persists_register_new_user (st : Db)
    (nm pw confirm salt uuid : string) :
  store_ok st ->
  persists st (settled (register_new_user crypt st nm pw confirm salt uuid) st).
Proof.
  intros Hok.
  destruct (register_new_user_cases crypt st nm pw confirm salt uuid)
    as [[_ ->]|[(_ & _ & ->)|[(_ & _ & hashed & _ & ->)
                             |(_ & _ & e & _ & ->)]]]; simpl;
    try apply persists_refl.
  split; simpl.
  - rewrite (dict_set_fresh _ _ _
               (new_key_fresh _ (ok_refs _ Hok) (ok_keys _ Hok))).
    by apply prefix_app_r.
  - intros l u Hl. exists u. rewrite lookup_app_l; [auto|].
    by apply lookup_lt_Some in Hl.
Qed.

Lemma persists_exec (st : Db) (c : Call) :
  store_ok st -> persists st (exec crypt st c).
Proof.
  intros Hok. destruct c; simpl.
  - by apply persists_register_new_user.
  - destruct (held st cu); [|apply persists_refl].
    unfold change_password.
    destruct (objects st !! cu) as [u|] eqn:Hcu; [|apply persists_refl].
    destruct (verify crypt current_password (password u)) as [[|]|e0];
      simpl; [|apply persists_refl|apply persists_refl].
    destruct (hash crypt salt new_password) as [hashed|e0]; simpl;
      [|apply persists_refl].
    set (u1 := mkUser (id u) (alternative_id u) (name u) hashed (deleted u)).
    apply (persists_trans _ (store cu u1 st)).
    + by apply (persists_store _ cu u1 u).
    + apply (persists_store _ cu _ u1); simpl; auto.
      apply list_lookup_insert_eq. by apply lookup_lt_Some in Hcu.
  - destruct (held st cu); [|apply persists_refl].
    unfold delete_current_user.
    destruct (objects st !! cu) as [u|] eqn:Hcu; [|apply persists_refl].
    destruct (verify crypt pw (password u)) as [[|]|e0]; simpl;
      [|apply persists_refl|apply persists_refl].
    by apply (persists_store _ cu _ u).
  - destruct (held st cu); [|apply persists_refl].
    unfold logout. destruct everywhere; [|apply persists_refl].
    destruct (objects st !! cu) as [u|] eqn:Hcu; [|apply persists_refl].
    simpl. by apply (persists_store _ cu _ u).
Qed.

(** What [persists] says of the objects, said of the values of the
    dictionary. *)
Lemma persists_user_values (st st' : Db) (l : ref) (u : User) :
  persists st st' -> (l, u) ∈ user_values st ->
  exists u', (l, u') ∈ user_values st' /\ id u' = id u /\
             name u' = name u /\ (deleted u = true -> deleted u' = true).
Proof.
  intros [[r Hr] Hobj] Hin. apply elem_of_user_values in Hin.
  destruct Hin as [[k Hk] Hl].
  destruct (Hobj _ _ Hl) as (u' & Hl' & H). exists u'. split; [|exact H].
  apply elem_of_user_values. split; [|exact Hl'].
  exists k. rewrite Hr. apply elem_of_app. by left.
Qed.

(** X1.  From a store that satisfies the invariants of the data model,
    whatever calls follow: every entry of [db["users"]] stays in its place,
    under its key and with its object, and every user of the dictionary is
    still a user of the dictionary, with the id and the name it had, and
    deleted if it was. *)
Theorem run_persists (calls : list Call) (st : Db) :
  store_ok st ->
  persists st (fold_left (exec crypt) calls st) /\
  forall l u, (l, u) ∈ user_values st ->
    exists u',
      (l, u') ∈ user_values (fold_left (exec crypt) calls st) /\
      id u' = id u /\ name u' = name u /\
      (deleted u = true -> deleted u' = true).
Proof.
  intros Hok.
  assert (H : persists st (fold_left (exec crypt) calls st)).
  { revert st Hok. induction calls as [|c calls IH]; intros st Hok; simpl.
    - apply persists_refl.
    - apply (persists_trans _ (exec crypt st c)).
      + by apply persists_exec.
      + apply IH. by apply store_ok_exec. }
  split; [exact H|]. intros l u Hin.
  by apply (persists_user_values st).
Qed.

(** X2.  Every sequence of calls keeps the invariants of the data model:
    from a store in which references have their objects, keys render the
    ids, ids are positive and no two non-deleted users share a name, the
    calls lead to a store of that kind. *)
Theorem run_keeps_store_ok (calls : list Call) (st : Db) :
  store_ok st -> store_ok (fold_left (exec crypt) calls st).
Proof.
  revert st. induction calls as [|c calls IH]; intros st Hok; simpl.
  - exact Hok.
  - apply IH. by apply store_ok_exec.
Qed.

(** ** Ids in the order of registration *)

Lemma numbered_users_S (n : nat) :
  numbered_users (S n) = numbered_users n ++ [(pretty (Z.of_nat (S n)), n)].
Proof. unfold numbered_users. rewrite seq_S, map_app. reflexivity. Qed.

Lemma numbered_users_elem (n i : nat) :
  (i < n)%nat -> (pretty (Z.of_nat (S i)), i) ∈ numbered_users n.
Proof.
  intros Hlt. unfold numbered_users.
  apply (list_elem_of_fmap_2 (fun i => (pretty (Z.of_nat (S i)), i))).
  apply list_elem_of_In, in_seq. lia.
Qed.

(** The store is numbered: the dictionary lists the objects in order, the
    object at address [i] under the key and with the id [i + 1]. *)
Lemma numbered_new_id (st : Db) :
  store_ok st ->
  users st = numbered_users (length (objects st)) ->
  (forall i u, objects st !! i = Some u -> id u = Z.of_nat (S i)) ->
  new_id st = Z.of_nat (S (length (objects st))).
Proof.
  intros Hok Husers Hids.
  assert (Hval : forall i u, objects st !! i = Some u ->
                             (i, u) ∈ user_values st).
  { intros i u Hi. apply elem_of_user_values. split; [|exact Hi].
    exists (pretty (Z.of_nat (S i))). rewrite Husers.
    apply numbered_users_elem. by apply lookup_lt_Some in Hi. }
  destruct (length (objects st)) as [|n] eqn:En.
  - destruct (user_values st) as [|[l u] r] eqn:E;
      [unfold new_id; rewrite E; reflexivity|].
    assert (Hin : (l, u) ∈ user_values st)
      by (rewrite E; apply list_elem_of_here).
    apply user_values_lookup, lookup_lt_Some in Hin. lia.
  - destruct (lookup_lt_is_Some_2 (objects st) n) as [un Hn]; [lia|].
    pose proof (Hval _ _ Hn) as Hinn.
    pose proof (new_id_gt _ _ _ Hinn) as Hgt.
    rewrite (Hids _ _ Hn) in Hgt.
    destruct (new_id_attained st (ok_ids _ Hok)) as (l & u & Hin & Hnew).
    { intros E. rewrite E in Hinn. by apply elem_of_nil in Hinn. }
    pose proof (user_values_lookup _ _ _ Hin) as Hl.
    pose proof (lookup_lt_Some _ _ _ Hl) as Hlt.
    rewrite (Hids _ _ Hl) in Hnew. lia.
Qed.

Lemma numbered_exec (st : Db) (c : Call) :
  store_ok st ->
  users st = numbered_users (length (objects st)) ->
  (forall i u, objects st !! i = Some u -> id u = Z.of_nat (S i)) ->
  users (exec crypt st c) =
  numbered_users (length (objects (exec crypt st c))) /\
  (forall i u, objects (exec crypt st c) !! i = Some u ->
               id u = Z.of_nat (S i)).
Proof.
  intros Hok Husers Hids.
  assert (Hstore : forall cu a u0,
            objects st !! cu = Some u0 -> id a = id u0 ->
            users (store cu a st) =
            numbered_users (length (objects (store cu a st))) /\
            (forall i u, objects (store cu a st) !! i = Some u ->
                         id u = Z.of_nat (S i))).
  { intros cu a u0 Hcu Hid. simpl. rewrite length_insert.
    split; [exact Husers|]. intros i u Hi.
    destruct (lookup_store _ _ _ _ _ Hi) as [[-> ->]|[_ Hi']].
    - rewrite Hid. by apply Hids.
    - by apply Hids. }
  destruct c; simpl.
  - destruct (register_new_user_cases crypt st nm pw confirm_password
                salt uuid)
      as [[_ ->]|[(_ & _ & ->)|[(_ & _ & hashed & _ & ->)
                               |(_ & _ & e & _ & ->)]]]; simpl; auto.
    rewrite (dict_set_fresh _ _ _
               (new_key_fresh _ (ok_refs _ Hok) (ok_keys _ Hok))).
    rewrite length_app, Nat.add_1_r, numbered_users_S. simpl.
    rewrite (numbered_new_id _ Hok Husers Hids), <- Husers.
    split; [reflexivity|]. intros i u Hi.
    apply lookup_snoc_Some in Hi. destruct Hi as [[_ Hi]|[-> <-]].
    + by apply Hids.
    + simpl. by apply numbered_new_id.
  - destruct (held st cu); [|auto]. unfold change_password.
    destruct (objects st !! cu) as [u|] eqn:Hcu; [|auto].
    destruct (verify crypt current_password (password u)) as [[|]|e0];
      simpl; [|auto|auto].
    destruct (hash crypt salt new_password) as [hashed|e0]; simpl; [|auto].
    rewrite list_insert_insert_eq.
    apply (Hstore cu _ u Hcu). reflexivity.
  - destruct (held st cu); [|auto]. unfold delete_current_user.
    destruct (objects st !! cu) as [u|] eqn:Hcu; [|auto].
    destruct (verify crypt pw (password u)) as [[|]|e0]; simpl;
      [|auto|auto].
    apply (Hstore cu _ u Hcu). reflexivity.
  - destruct (held st cu); [|auto]. unfold logout.
    destruct everywhere; [|auto].
    destruct (objects st !! cu) as [u|] eqn:Hcu; [|auto]. simpl.
    apply (Hstore cu _ u Hcu). reflexivity.
Qed.

(** X3.  In every store the service reaches, ids follow the order of
    registration: with [n] users registered so far, the dictionary holds
    the keys "1" to "n" in this order, the key of [i] leads to the [i]-th
    object created, whose id is [i], and the next id is [n + 1].  So an id
    is never handed out twice, whatever was deleted. *)
Theorem reachable_users_numbered (st : Db) :
  reachable crypt st ->
  users st = numbered_users (length (objects st)) /\
  (forall i u, objects st !! i = Some u -> id u = Z.of_nat (S i)) /\
  new_id st = Z.of_nat (S (length (objects st))).
Proof.
  intros Hreach.
  pose proof (reachable_store_ok crypt st Hreach) as Hok.
  destruct Hreach as [calls <-]. unfold run in *.
  assert (H : users (fold_left (exec crypt) calls db) =
              numbered_users
                (length (objects (fold_left (exec crypt) calls db))) /\
              (forall i u,
                 objects (fold_left (exec crypt) calls db) !! i = Some u ->
                 id u = Z.of_nat (S i))).
  { clear Hok.
    assert (H0 : users db = numbered_users (length (objects db)) /\
                 (forall i u, objects db !! i = Some u ->
                              id u = Z.of_nat (S i)))
      by (split; [reflexivity|discriminate]).
    revert H0. generalize store_ok_db. generalize db.
    induction calls as [|c calls IH]; intros st0 Hok0 [Hu0 Hi0]; simpl;
      [auto|].
    apply IH; [by apply store_ok_exec|by apply numbered_exec]. }
  destruct H as [Hu Hi]. split; [exact Hu|]. split; [exact Hi|].
  by apply numbered_new_id.
Qed.

(** ** Who can authenticate *)

(** X4.  In a store where no two non-deleted users share a name,
    [authenticate_user] returns a user exactly when that user is in the
    dictionary, has the name, is not deleted and has a hash that the
    password verifies against. *)
Theorem authenticate_user_iff (st : Db) (nm pw : string) (l : ref) :
  names_unique st ->
  authenticate_user crypt st nm pw = Returns (Some l) <->
  exists u, (l, u) ∈ user_values st /\ name u = nm /\ deleted u = false /\
            verify crypt pw (password u) = Returns true.
Proof.
  intros Huniq. split; [apply authenticate_user_some|].
  intros (u & Hin & Hname & Hdel & Hv).
  destruct (List.filter (name_taken nm) (user_values st))
    as [|[l0 u0] r] eqn:E.
  - exfalso. rewrite filter_nil_iff in E. specialize (E _ Hin).
    assert (Ht : name_taken nm (l, u) = true) by (by apply name_taken_true).
    congruence.
  - rewrite (authenticate_user_first crypt _ _ pw _ _ _ E).
    apply filter_head_elem in E. destruct E as [Hin0 Ht].
    apply name_taken_true in Ht. destruct Ht as [Hname0 Hdel0].
    assert (l0 = l) as -> by (apply (Huniq l0 u0 l u); auto; congruence).
    assert (u0 = u) as ->.
    { apply user_values_lookup in Hin, Hin0. congruence. }
    rewrite Hv. reflexivity.
Qed.

Lemma authenticate_user_raises (st : Db) (nm pw : string) (e : Exception) :
  authenticate_user crypt st nm pw = Raises e ->
  exists l u, (l, u) ∈ user_values st /\ name u = nm /\ deleted u = false /\
              verify crypt pw (password u) = Raises e.
Proof.
  unfold authenticate_user.
  destruct (List.filter (name_taken nm) (user_values st))
    as [|[l0 u0] r] eqn:E; [discriminate|].
  destruct (verify crypt pw (password u0)) as [v|e0] eqn:Hv; [discriminate|].
  intros H. injection H as <-.
  apply filter_head_elem in E. destruct E as [Hin Ht].
  apply name_taken_true in Ht. destruct Ht as [Hname Hdel].
  exists l0, u0. auto.
Qed.

(** X5.  [login] has three outcomes.  Either it answers "login success" and
    hands a user to [login_user], and then that user is in the dictionary,
    has the name, is not deleted and passed the password check; or it
    answers 401 with the one message "Username or Password Error" and hands
    over nobody; or the password check of a non-deleted user with the name
    raises, and [login] raises the same exception, with no response. *)
Theorem login_outcomes (st : Db) (username pw : string) :
  (exists l u,
     login crypt st username pw =
     Returns (Json (mkBody 200 "login success"), Some l) /\
     (l, u) ∈ user_values st /\ name u = username /\ deleted u = false /\
     verify crypt pw (password u) = Returns true) \/
  (login crypt st username pw =
   Returns (JsonWithCode (mkBody 401 "Username or Password Error") 401,
            None) /\
   authenticate_user crypt st username pw = Returns None) \/
  (exists l u e,
     login crypt st username pw = Raises e /\
     (l, u) ∈ user_values st /\ name u = username /\ deleted u = false /\
     verify crypt pw (password u) = Raises e).
Proof.
  unfold login.
  destruct (authenticate_user crypt st username pw) as [[l|]|e] eqn:E.
  - left. destruct (authenticate_user_some crypt _ _ _ _ E) as (u & H).
    exists l, u. auto.
  - right. left. auto.
  - right. right.
    destruct (authenticate_user_raises _ _ _ _ E) as (l & u & H).
    exists l, u, e. auto.
Qed.

Lemma store_store (st : Db) (cu : ref) (a b : User) :
  store cu a (store cu b st) = store cu a st.
Proof. unfold store. simpl. rewrite list_insert_insert_eq. reflexivity. Qed.

(** X6.  After a successful [change_password] by a user of the dictionary
    who is not deleted, in a store where no two non-deleted users share a
    name, [authenticate_user] with the user's name depends on the new hash
    alone: it returns the user for a password that verifies against the new
    hash, [None] for one that the check rejects, the old password included
    when the new hash rejects it, and it raises what the check raises. *)
Theorem change_password_then_authenticate (st st' : Db) (k : string)
    (cu : ref) (u : User) (current_password new_password salt uuid : string) :
  names_unique st ->
  (k, cu) ∈ users st ->
  objects st !! cu = Some u ->
  deleted u = false ->
  change_password crypt st cu current_password new_password salt uuid =
  Some (Returns (password_change_successful, st')) ->
  exists hashed,
    hash crypt salt new_password = Returns hashed /\
    forall pw,
      authenticate_user crypt st' (name u) pw =
      match verify crypt pw hashed with
      | Raises e => Raises e
      | Returns verified => Returns (if verified then Some cu else None)
      end.
Proof.
  intros Huniq Hk Hcu Hdel Hcall.
  destruct (change_password_success crypt _ _ _ _ _ _ _ _ Hcu Hcall)
    as (_ & hashed & Hh & ->).
  exists hashed. split; [exact Hh|]. intros pw.
  rewrite store_store.
  set (a := mkUser (id u) uuid (name u) hashed (deleted u)).
  assert (Hina : (cu, a) ∈ user_values (store cu a st)).
  { apply elem_of_user_values. split; [by exists k|]. simpl.
    apply list_lookup_insert_eq. by apply lookup_lt_Some in Hcu. }
  destruct (List.filter (name_taken (name u)) (user_values (store cu a st)))
    as [|[l0 u0] r] eqn:E.
  - exfalso. rewrite filter_nil_iff in E. specialize (E _ Hina).
    assert (Ht : name_taken (name u) (cu, a) = true)
      by (by apply name_taken_true).
    congruence.
  - rewrite (authenticate_user_first crypt _ _ pw _ _ _ E).
    apply filter_head_elem in E. destruct E as [Hin0 Ht].
    apply name_taken_true in Ht. destruct Ht as [Hname0 Hdel0].
    apply elem_of_user_values_store in Hin0.
    destruct Hin0 as [[-> ->]|[Hne Hin0]]; [reflexivity|].
    exfalso. apply Hne. apply (Huniq l0 u0 cu u); auto.
    apply elem_of_user_values. eauto.
Qed.

(** ** Logout *)

Lemma filter_map_commute {A : Type} (p : A -> bool) (f : A -> A)
    (xs : list A) :
  (forall x, x ∈ xs -> p (f x) = p x) ->
  List.filter p (map f xs) = map f (List.filter p xs).
Proof.
  induction xs as [|x xs IH]; intros H; simpl; [reflexivity|].
  rewrite (H x (list_elem_of_here _ _)).
  rewrite IH by (intros y Hy; apply H; by apply list_elem_of_further).
  by destruct (p x).
Qed.

(** Assigning an attribute that [authenticate_user] does not read leaves
    its result as it was. *)
Lemma authenticate_user_store (st : Db) (cu : ref) (a u : User)
    (nm pw : string) :
  objects st !! cu = Some u ->
  name a = name u -> password a = password u -> deleted a = deleted u ->
  authenticate_user crypt (store cu a st) nm pw =
  authenticate_user crypt st nm pw.
Proof.
  intros Hcu Hname Hpw Hdel. unfold authenticate_user.
  rewrite (user_values_store _ _ _ (lookup_lt_Some _ _ _ Hcu)).
  rewrite filter_map_commute.
  - destruct (List.filter (name_taken nm) (user_values st))
      as [|[l0 u0] r] eqn:E; [reflexivity|]. simpl.
    destruct (Nat.eqb_spec l0 cu) as [->|_]; [|reflexivity]. simpl.
    apply filter_head_elem in E. destruct E as [Hin _].
    apply user_values_lookup in Hin.
    assert (u0 = u) as -> by congruence. rewrite Hpw. reflexivity.
  - intros [l0 u0] Hin. simpl.
    destruct (Nat.eqb_spec l0 cu) as [->|_]; [|reflexivity].
    apply user_values_lookup in Hin.
    assert (u0 = u) as -> by congruence.
    unfold name_taken. simpl. rewrite Hname, Hdel. reflexivity.
Qed.

(** X7.  [logout] without [everywhere] leaves the store as it is.  With
    [everywhere] it replaces the current user's alternative id and nothing
    else: every [authenticate_user] answers as before, and when the new id
    differs from the old one and no other user of the dictionary holds the
    old one, [load_user] no longer resolves the old id. *)
Theorem logout_everywhere_rotates (st : Db) (cu : ref) (u : User)
    (uuid : string) :
  objects st !! cu = Some u ->
  logout st cu false uuid = Some (Json (mkBody 200 "logout success"), st) /\
  exists st',
    logout st cu true uuid = Some (Json (mkBody 200 "logout success"), st') /\
    objects st' !! cu =
    Some (mkUser (id u) uuid (name u) (password u) (deleted u)) /\
    users st' = users st /\
    (forall l, l <> cu -> objects st' !! l = objects st !! l) /\
    (forall nm pw,
       authenticate_user crypt st' nm pw = authenticate_user crypt st nm pw) /\
    (uuid <> alternative_id u ->
     (forall l u', (l, u') ∈ user_values st -> l <> cu ->
                   alternative_id u' <> alternative_id u) ->
     load_user st' (alternative_id u) = None).
Proof.
  intros Hcu. split; [reflexivity|].
  unfold logout. rewrite Hcu. eexists. split; [reflexivity|].
  pose proof (lookup_lt_Some _ _ _ Hcu) as Hlt.
  split; [by apply list_lookup_insert_eq|].
  split; [reflexivity|].
  split; [intros l Hne; apply list_lookup_insert_ne; auto|].
  split.
  - intros nm pw. by apply (authenticate_user_store _ _ _ u).
  - intros Hfresh Hothers. apply load_user_none. intros l u' Hin.
    apply elem_of_user_values_store in Hin.
    destruct Hin as [[_ ->]|[Hne Hin]]; [simpl; congruence|eauto].
Qed.

(** ** The session of a new user *)

Lemma load_user_none_inv (st : Db) (sid : string) (l : ref) (u : User) :
  load_user st sid = None -> (l, u) ∈ user_values st ->
  alternative_id u <> sid.
Proof.
  unfold load_user.
  destruct (List.filter _ (user_values st)) as [|[l0 u0] r] eqn:E;
    [|discriminate].
  intros _ Hin. rewrite filter_nil_iff in E. specialize (E _ Hin).
  simpl in E. by apply String.eqb_neq.
Qed.

(** X8.  When no user of the store holds the alternative id generated for
    a registration, [load_user] resolves that id, after the successful
    registration, to the object the registration created. *)
Theorem register_then_load_user (st st' : Db)
    (nm pw confirm salt uuid : string) :
  register_new_user crypt st nm pw confirm salt uuid =
  Returns (registration_successful nm, st') ->
  load_user st uuid = None ->
  load_user st' uuid = Some (length (objects st)) /\
  exists hashed,
    hash crypt salt pw = Returns hashed /\
    objects st' !! length (objects st) =
    Some (mkUser (new_id st) uuid nm hashed false).
Proof.
  intros Hreg Hnone.
  destruct (register_new_user_success crypt _ _ _ _ _ _ _ Hreg)
    as (_ & _ & hashed & Hh & ->).
  split.
  - unfold load_user.
    destruct (List.filter
                (fun x => String.eqb (alternative_id (snd x)) uuid)
                (user_values
                   (mkDb (objects st ++ [new_user st nm hashed uuid])
                         (Dict.set (pretty (new_id st)) (length (objects st))
                                   (users st)))))
      as [|[l0 u0] r] eqn:E.
    + exfalso. rewrite filter_nil_iff in E.
      specialize (E _ (new_in_user_values_registered st
                         (pretty (new_id st))
                         (new_user st nm hashed uuid))).
      simpl in E. rewrite String.eqb_refl in E. discriminate.
    + apply filter_head_elem in E. destruct E as [Hin Halt].
      simpl in Halt. apply String.eqb_eq in Halt.
      apply elem_of_user_values_registered in Hin.
      destruct Hin as [[-> _]|Hin]; [reflexivity|].
      exfalso. by apply (load_user_none_inv _ _ _ _ Hnone Hin).
  - exists hashed. split; [exact Hh|].
    simpl. rewrite lookup_app_r by lia. rewrite Nat.sub_diag. reflexivity.
Qed.

End RunFacts.

(** * Further properties of the uploader *)

From Stdlib Require Import Ascii.

Lemma truthy_true (s : string) : s <> "" -> S3.truthy s = true.
Proof.
  intros H. unfold S3.truthy. apply negb_true_iff. by apply String.eqb_neq.
Qed.

Lemma append_empty_r (s : string) : s +:+ "" = s.
Proof.
  induction s as [|a s IH]; [reflexivity|].
  change (String a (s +:+ "") = String a s). by rewrite IH.
Qed.

(** The URI of a key of at least one character in a bucket that has a
    name. *)
Lemma as_uri_bucket_key (b : string) (c : Ascii.ascii) (k : string) :
  b <> "" ->
  S3.as_uri (Some b) (Some (String c k)) =
  if Ascii.eqb c "/"%char then "s3://" +:+ b +:+ String c k
  else "s3://" +:+ b +:+ "/" +:+ String c k.
Proof.
  intros Hb. unfold S3.as_uri, S3.urlunparse, S3.urlunsplit, S3.or_empty.
  rewrite (truthy_true b Hb). simpl. rewrite (truthy_true b Hb). simpl.
  destruct (Ascii.eqb c "/"%char); destruct k; reflexivity.
Qed.

(** X9.  For a bucket with a name, [as_uri] gives "s3://" and the bucket,
    followed by nothing for a missing or empty key, by the key itself when
    it starts with "/", and by "/" and the key otherwise. *)
Theorem as_uri_with_bucket (b : string) :
  b <> "" ->
  S3.as_uri (Some b) None = "s3://" +:+ b /\
  S3.as_uri (Some b) (Some "") = "s3://" +:+ b /\
  (forall k, S3.as_uri (Some b) (Some (String "/"%char k)) =
             "s3://" +:+ b +:+ String "/"%char k) /\
  (forall c k, c <> "/"%char ->
     S3.as_uri (Some b) (Some (String c k)) =
     "s3://" +:+ b +:+ "/" +:+ String c k).
Proof.
  intros Hb.
  assert (Hempty : S3.as_uri (Some b) (Some "") = "s3://" +:+ b).
  { unfold S3.as_uri, S3.urlunparse, S3.urlunsplit, S3.or_empty.
    rewrite (truthy_true b Hb). simpl. rewrite (truthy_true b Hb). simpl.
    rewrite append_empty_r. reflexivity. }
  split; [exact Hempty|]. split; [exact Hempty|]. split.
  - intros k. rewrite (as_uri_bucket_key b "/"%char k Hb). reflexivity.
  - intros c k Hc. rewrite (as_uri_bucket_key b c k Hb).
    apply Ascii.eqb_neq in Hc. rewrite Hc. reflexivity.
Qed.

(** X10.  [as_uri] does not tell a key from the same key with one "/" in
    front: in a bucket with a name, "k" and "/k" get one URI. *)
Theorem as_uri_leading_slash (b : string) (c : Ascii.ascii) (k : string) :
  b <> "" -> c <> "/"%char ->
  S3.as_uri (Some b) (Some (String "/"%char (String c k))) =
  S3.as_uri (Some b) (Some (String c k)).
Proof.
  intros Hb Hc. rewrite !(as_uri_bucket_key b _ _ Hb).
  apply Ascii.eqb_neq in Hc. rewrite Hc. reflexivity.
Qed.

(** X11.  Without a bucket, missing or empty, [as_uri] writes no "//": the
    result is "s3:" followed by the key, or by nothing for a missing or
    empty key. *)
Theorem as_uri_without_bucket (key : option string) :
  S3.as_uri None key = "s3:" +:+ S3.or_empty key /\
  S3.as_uri (Some "") key = "s3:" +:+ S3.or_empty key.
Proof.
  unfold S3.as_uri, S3.urlunparse, S3.urlunsplit. simpl. auto.
Qed.

(** X12.  What the result of [upload] tells about the client's call:
    [None] is returned exactly when the client raised [ClientError], a URI
    exactly when the client returned, and it is [as_uri(bucket, key)]; an
    exception comes out exactly when the client raised it and it is no
    [ClientError]; and the record "S3 upload failed" is logged exactly in
    the [ClientError] case. *)
Theorem upload_result_iff (Fileobj : Type)
    (upload_fileobj : Fileobj -> string -> string -> S3.Outcome unit)
    (fileobj : Fileobj) (bucket key : string) :
  (snd (S3.upload Fileobj upload_fileobj fileobj bucket key) =
   S3.Returns None <->
   upload_fileobj fileobj bucket key = S3.Raises S3.ClientError) /\
  (forall uri,
     snd (S3.upload Fileobj upload_fileobj fileobj bucket key) =
     S3.Returns (Some uri) <->
     (exists r, upload_fileobj fileobj bucket key = S3.Returns r) /\
     uri = S3.as_uri (Some bucket) (Some key)) /\
  (forall e,
     snd (S3.upload Fileobj upload_fileobj fileobj bucket key) =
     S3.Raises e <->
     upload_fileobj fileobj bucket key = S3.Raises e /\
     e <> S3.ClientError) /\
  (S3.LogException "S3 upload failed"
     ∈ fst (S3.upload Fileobj upload_fileobj fileobj bucket key) <->
   upload_fileobj fileobj bucket key = S3.Raises S3.ClientError).
Proof.
  unfold S3.upload.
  destruct (upload_fileobj fileobj bucket key) as [r|[|cls]]; simpl.
  - split; [split; discriminate|]. split.
    + intros uri. split.
      * intros H. injection H as <-. eauto.
      * intros [_ ->]. reflexivity.
    + split; [intros e; split; [discriminate|intros [H _]; discriminate]|].
      split; [|discriminate]. intros H.
      apply elem_of_cons in H. destruct H as [H|H]; [discriminate|].
      apply list_elem_of_singleton in H. discriminate.
  - split; [split; reflexivity|]. split.
    + intros uri. split; [discriminate|]. intros [[r H] _]. discriminate.
    + split.
      * intros e. split; [discriminate|].
        intros [H Hne]. injection H as <-. contradiction.
      * split; [reflexivity|]. intros _.
        apply list_elem_of_further, list_elem_of_here.
  - split; [split; discriminate|]. split.
    + intros uri. split; [discriminate|]. intros [[r H] _]. discriminate.
    + split.
      * intros e. split.
        -- intros H. injection H as <-. split; [reflexivity|discriminate].
        -- intros [H _]. injection H as <-. reflexivity.
      * split; [|discriminate]. intros H.
        apply list_elem_of_singleton in H. discriminate.
Qed.

(** * Comma-separated option values *)

Import PoisonTrain.

Lemma split_nonempty (sep : N) (s : list N) : split sep s <> [].
Proof.
  destruct s as [|c s]; simpl; [discriminate|].
  destruct (c =? sep)%N; [discriminate|].
  destruct (split sep s); discriminate.
Qed.

Lemma split_cons_other (sep c : N) (s : list N) :
  c <> sep ->
  exists w ws, split sep s = w :: ws /\ split sep (c :: s) = (c :: w) :: ws.
Proof.
  intros Hc. simpl. apply N.eqb_neq in Hc. rewrite Hc.
  destruct (split sep s) as [|w ws] eqn:E.
  - by apply split_nonempty in E.
  - eauto.
Qed.

Lemma split_length (sep : N) (s : list N) :
  length (split sep s) = S (length (List.filter (fun c => (c =? sep)%N) s)).
Proof.
  induction s as [|c s IH]; [reflexivity|].
  destruct (N.eqb_spec c sep) as [->|Hne].
  - simpl. rewrite N.eqb_refl. simpl. by rewrite IH.
  - destruct (split_cons_other sep c s Hne) as (w & ws & E & ->).
    simpl. apply N.eqb_neq in Hne. rewrite Hne.
    rewrite E in IH. exact IH.
Qed.

Lemma split_no_sep (sep : N) (s w : list N) :
  w ∈ split sep s -> sep ∉ w.
Proof.
  revert w. induction s as [|c s IH]; intros w Hw.
  - apply list_elem_of_singleton in Hw. subst w. apply not_elem_of_nil.
  - destruct (N.eqb_spec c sep) as [->|Hne].
    + simpl in Hw. rewrite N.eqb_refl in Hw.
      apply elem_of_cons in Hw. destruct Hw as [->|Hw]; [|by apply IH].
      apply not_elem_of_nil.
    + destruct (split_cons_other sep c s Hne) as (w0 & ws & E & E').
      rewrite E' in Hw. apply elem_of_cons in Hw.
      destruct Hw as [->|Hw].
      * apply not_elem_of_cons. split; [auto|].
        apply IH. rewrite E. apply list_elem_of_here.
      * apply IH. rewrite E. by apply list_elem_of_further.
Qed.

Lemma split_piece_sep (sep : N) (x s : list N) :
  sep ∉ x -> split sep (x ++ sep :: s) = x :: split sep s.
Proof.
  induction x as [|c x IH]; intros Hx; simpl.
  - rewrite N.eqb_refl. reflexivity.
  - apply not_elem_of_cons in Hx. destruct Hx as [Hc Hx].
    assert (Hcb : (c =? sep)%N = false) by (apply N.eqb_neq; auto).
    rewrite Hcb, (IH Hx). reflexivity.
Qed.

Lemma split_piece (sep : N) (x : list N) : sep ∉ x -> split sep x = [x].
Proof.
  induction x as [|c x IH]; intros Hx; simpl; [reflexivity|].
  apply not_elem_of_cons in Hx. destruct Hx as [Hc Hx].
  assert (Hcb : (c =? sep)%N = false) by (apply N.eqb_neq; auto).
  rewrite Hcb, (IH Hx). reflexivity.
Qed.

Lemma split_snoc_sep (sep : N) (s : list N) :
  split sep (s ++ [sep]) = split sep s ++ [[]].
Proof.
  induction s as [|c s IH]; simpl.
  - rewrite N.eqb_refl. reflexivity.
  - destruct (c =? sep)%N; rewrite IH; [reflexivity|].
    destruct (split sep s) as [|w ws] eqn:E; [|reflexivity].
    by apply split_nonempty in E.
Qed.

Lemma split_join (sep : N) (items : list (list N)) :
  items <> [] -> (forall x, x ∈ items -> sep ∉ x) ->
  split sep (join sep items) = items.
Proof.
  induction items as [|x items IH]; intros Hne Hfree; [congruence|].
  destruct items as [|y items].
  - simpl. apply split_piece. apply Hfree. apply list_elem_of_here.
  - change (join sep (x :: y :: items))
      with (x ++ sep :: join sep (y :: items)).
    rewrite split_piece_sep by (apply Hfree; apply list_elem_of_here).
    rewrite IH; [reflexivity|discriminate|].
    intros z Hz. apply Hfree. by apply list_elem_of_further.
Qed.

Lemma lstrip_head (s : list N) (c : N) :
  head (lstrip s) = Some c -> is_space c = false.
Proof.
  induction s as [|a s IH]; simpl; [discriminate|].
  destruct (is_space a) eqn:E; [exact IH|].
  simpl. intros H. injection H as <-. exact E.
Qed.

Lemma lstrip_suffix (s : list N) : exists p, s = p ++ lstrip s.
Proof.
  induction s as [|a s [p IH]]; simpl; [by exists []|].
  destruct (is_space a).
  - exists (a :: p). simpl. by rewrite <- IH.
  - by exists [].
Qed.

Lemma lstrip_last (s : list N) (c : N) :
  last (lstrip s) = Some c -> last s = Some c.
Proof.
  intros H. destruct (lstrip_suffix s) as [p Hp].
  rewrite Hp, last_app, H. reflexivity.
Qed.

Lemma last_rev {A : Type} (l : list A) : last (rev l) = head l.
Proof. destruct l as [|a l]; simpl; [reflexivity|]. apply last_snoc. Qed.

Lemma rstrip_last (s : list N) (c : N) :
  last (rstrip s) = Some c -> is_space c = false.
Proof.
  unfold rstrip. rewrite last_rev. apply lstrip_head.
Qed.

Lemma strip_ends (s : list N) :
  (forall c, head (strip s) = Some c -> is_space c = false) /\
  (forall c, last (strip s) = Some c -> is_space c = false).
Proof.
  unfold strip. split.
  - apply lstrip_head.
  - intros c H. apply lstrip_last in H. by apply (rstrip_last s).
Qed.

Lemma lstrip_elem (s : list N) (c : N) : c ∈ lstrip s -> c ∈ s.
Proof.
  destruct (lstrip_suffix s) as [p Hp]. intros H.
  rewrite Hp. apply elem_of_app. auto.
Qed.

Lemma strip_elem (s : list N) (c : N) : c ∈ strip s -> c ∈ s.
Proof.
  unfold strip, rstrip. intros H. apply lstrip_elem in H.
  apply list_elem_of_In, in_rev, list_elem_of_In in H.
  apply lstrip_elem in H. by apply list_elem_of_In, in_rev, list_elem_of_In.
Qed.

(** X13.  For a given value, the callback returns as many items as the
    value has commas, plus one: never an empty list, and one empty item for
    the empty value. *)
Theorem coerce_item_count (v : list N) :
  exists items,
    _coerce_comma_separated_values (Some v) = Ok items /\
    length items =
    S (length (List.filter (fun c => (c =? comma)%N) v)) /\
    items <> [].
Proof.
  eexists. split; [reflexivity|].
  split; [rewrite length_map; apply split_length|].
  intros H. apply (f_equal length) in H.
  rewrite length_map, split_length in H. discriminate.
Qed.

(** X14.  No item that the callback returns contains a comma, starts with
    a whitespace character or ends with one. *)
Theorem coerce_items_stripped (v : list N) (items : list (list N))
    (x : list N) :
  _coerce_comma_separated_values (Some v) = Ok items ->
  x ∈ items ->
  (comma ∉ x) /\
  (forall c, head x = Some c -> is_space c = false) /\
  (forall c, last x = Some c -> is_space c = false).
Proof.
  intros H Hx. injection H as <-.
  apply list_elem_of_fmap in Hx. destruct Hx as (w & -> & Hw).
  split; [|apply strip_ends].
  intros Hc. apply strip_elem in Hc. by apply (split_no_sep comma v w).
Qed.

(** X15.  Given the items of a non-empty list joined by commas, none of
    them with a comma inside, the callback returns the items, each
    stripped; so it returns the list itself when no item starts or ends
    with whitespace. *)
Theorem coerce_join (items : list (list N)) :
  items <> [] ->
  (forall x, x ∈ items -> comma ∉ x) ->
  _coerce_comma_separated_values (Some (join comma items)) =
  Ok (map strip items) /\
  ((forall x, x ∈ items -> strip x = x) ->
   _coerce_comma_separated_values (Some (join comma items)) = Ok items).
Proof.
  intros Hne Hfree. unfold _coerce_comma_separated_values.
  rewrite (split_join comma items Hne Hfree).
  split; [reflexivity|]. intros Hid. f_equal.
  induction items as [|x items IH]; [congruence|]. simpl.
  rewrite (Hid x (list_elem_of_here _ _)). f_equal.
  destruct items as [|y items]; [reflexivity|].
  apply IH; [discriminate| |].
  - intros z Hz. apply Hfree. by apply list_elem_of_further.
  - intros z Hz. apply Hid. by apply list_elem_of_further.
Qed.

(** X16.  A comma at the end of the value gives one more item, the empty
    string, after the items of the value without that comma. *)
Theorem coerce_trailing_comma (v : list N) (items : list (list N)) :
  _coerce_comma_separated_values (Some v) = Ok items ->
  _coerce_comma_separated_values (Some (v ++ [comma])) = Ok (items ++ [[]]).
Proof.
  intros H. injection H as <-. unfold _coerce_comma_separated_values.
  rewrite split_snoc_sep, map_app. reflexivity.
Qed.

(** * Further examples *)

Lemma two_users_names_unique : names_unique two_users.
Proof.
  apply ok_names, (reachable_store_ok example_context).
  eexists. reflexivity.
Qed.

Lemma run_persists_witness :
  persists one_user reregistered /\
  exists u', (0%nat, u') ∈ user_values reregistered /\
             id u' = 1%Z /\ name u' = "alice".
Proof.
  destruct (run_persists example_context
              [DeleteCurrentUser 0 "pw"; Register "alice" "pw" "pw" "s2" "u2"]
              one_user
              (reachable_store_ok example_context one_user
                 (ex_intro _ [Register "alice" "pw" "pw" "s1" "u1"] eq_refl)))
    as [Hp Hv].
  split; [exact Hp|].
  destruct (Hv 0%nat (mkUser 1 "u1" "alice" "pw$s1" false)
               (list_elem_of_here _ _))
    as (u' & Hin & Hid & Hname & _).
  exists u'. auto.
Defined.

Lemma run_keeps_store_ok_witness :
  store_ok (fold_left (exec example_context) alice_twice db).
Proof.
  apply (run_keeps_store_ok example_context alice_twice db store_ok_db).
Defined.

Lemma reachable_users_numbered_witness :
  users reregistered = [("1", 0%nat); ("2", 1%nat)] /\
  new_id reregistered = 3%Z.
Proof.
  destruct (reachable_users_numbered example_context reregistered)
    as (Hu & _ & Hn).
  - exists alice_twice. reflexivity.
  - split; [exact Hu|exact Hn].
Defined.

Lemma authenticate_user_iff_witness :
  authenticate_user example_context two_users "bob" "pw2" =
  Returns (Some 1%nat).
Proof.
  apply (proj2 (authenticate_user_iff example_context two_users "bob" "pw2"
                  1%nat two_users_names_unique)).
  exists (mkUser 2 "u2" "bob" "pw2$s2" false).
  split; [apply list_elem_of_further, list_elem_of_here|].
  repeat split.
Defined.

Lemma change_password_then_authenticate_witness :
  authenticate_user example_context
    (after (change_password example_context two_users 1 "pw2" "new" "s3" "u3")
           two_users)
    "bob" "new" = Returns (Some 1%nat) /\
  authenticate_user example_context
    (after (change_password example_context two_users 1 "pw2" "new" "s3" "u3")
           two_users)
    "bob" "pw2" = Returns None.
Proof.
  destruct (change_password_then_authenticate example_context two_users
              (after (change_password example_context two_users 1
                        "pw2" "new" "s3" "u3") two_users)
              "2" 1%nat (mkUser 2 "u2" "bob" "pw2$s2" false)
              "pw2" "new" "s3" "u3" two_users_names_unique
              (list_elem_of_further _ _ _ (list_elem_of_here _ _))
              eq_refl eq_refl eq_refl)
    as (hashed & Hh & H).
  vm_compute in Hh. injection Hh as <-.
  split; [exact (H "new")|exact (H "pw2")].
Defined.

Lemma logout_everywhere_rotates_witness :
  logout two_users 1 false "u9" =
  Some (Json (mkBody 200 "logout success"), two_users).
Proof.
  apply (proj1 (logout_everywhere_rotates example_context two_users 1%nat
                  (mkUser 2 "u2" "bob" "pw2$s2" false) "u9" eq_refl)).
Defined.

Lemma register_then_load_user_witness :
  load_user
    (settled (register_new_user example_context two_users
                "carol" "pw3" "pw3" "s3" "u3") two_users)
    "u3" = Some 2%nat.
Proof.
  apply (proj1 (register_then_load_user example_context two_users _
                  "carol" "pw3" "pw3" "s3" "u3" eq_refl eq_refl)).
Defined.

Lemma as_uri_with_bucket_witness :
  S3.as_uri (Some "bucket") None = "s3://bucket" /\
  S3.as_uri (Some "bucket") (Some "a/b") = "s3://bucket/a/b".
Proof.
  assert (Hb : "bucket" <> "") by discriminate.
  destruct (as_uri_with_bucket "bucket" Hb) as (Hnone & _ & _ & Hkey).
  split; [exact Hnone|]. apply (Hkey "a"%char "/b"). discriminate.
Defined.

Lemma as_uri_leading_slash_witness :
  S3.as_uri (Some "b") (Some "/k") = S3.as_uri (Some "b") (Some "k").
Proof.
  apply (as_uri_leading_slash "b" "k"%char ""); discriminate.
Defined.

Lemma coerce_items_stripped_witness :
  (comma ∉ [98%N]) /\ is_space 98 = false.
Proof.
  destruct (coerce_items_stripped [32; 97; 32; 44; 32; 98]%N
              [[97%N]; [98%N]] [98%N] eq_refl
              (list_elem_of_further _ _ _ (list_elem_of_here _ _)))
    as (Hc & Hh & _).
  split; [exact Hc|]. apply Hh. reflexivity.
Defined.

Lemma coerce_join_witness :
  _coerce_comma_separated_values (Some [97; 44; 98]%N) =
  Ok [[97%N]; [98%N]].
Proof.
  refine (proj2 (coerce_join [[97%N]; [98%N]] _ _) _).
  - discriminate.
  - intros x Hx Hc. apply elem_of_cons in Hx. destruct Hx as [->|Hx].
    + apply list_elem_of_singleton in Hc. discriminate.
    + apply list_elem_of_singleton in Hx. subst x.
      apply list_elem_of_singleton in Hc. discriminate.
  - intros x Hx. apply elem_of_cons in Hx. destruct Hx as [->|Hx].
    + reflexivity.
    + apply list_elem_of_singleton in Hx. subst x. reflexivity.
Defined.

Lemma coerce_trailing_comma_witness :
  _coerce_comma_separated_values (Some [97; 44]%N) = Ok [[97%N]; []].
Proof.
  apply (coerce_trailing_comma [97%N] [[97%N]] eq_refl).
Defined.
